(** * robotplanner.py: A* search on a 2-D grid of walls

    A shallow embedding of [src/robotplanner.py] and the verification of
    its specification.  Python integers are [Z]; Python lists are [list];
    the dictionaries [cost] and [parent] are [gmap]s keyed by [Vector2];
    exceptions and [sys.exit] are the constructors of [result]; the two
    [while] loops take a fuel argument and answer [None] when it runs out. *)

From stdpp Require Import gmap strings list fin_maps sorting.
From Stdlib Require Import ZArith Lia Ascii.

Local Open Scope Z_scope.

(** ** Outcomes of a call *)

(** The exceptions the modelled code can raise. *)
Inductive exn : Type :=
  | IndexError
  | KeyError
  | AttributeError.

(** A call returns a value, raises an exception that nobody catches, or
    leaves through [err], which prints its message and calls [sys.exit(1)]. *)
Inductive result (A : Type) : Type :=
  | Ok (a : A)
  | Raise (e : exn)
  | SysExit (msg : string).

Arguments Ok {A} a.
Arguments Raise {A} e.
Arguments SysExit {A} msg.

Definition bind {A B : Type} (r : result A) (k : A → result B) : result B :=
  match r with
  | Ok a => k a
  | Raise e => Raise e
  | SysExit msg => SysExit msg
  end.

Notation "'let*' v ':=' r 'in' k" := (bind r (λ v, k))
  (at level 10, v name, r at level 100, k at level 200).

(** [err(msg)]: print the message, exit with status 1. *)
Definition err {A : Type} (msg : string) : result A := SysExit msg.

(** ** Vector2 *)

Record Vector2 : Type := mkVector2 { x : Z; y : Z }.

#[global] Instance Vector2_eq_dec : EqDecision Vector2.
Proof. solve_decision. Defined.

#[global] Instance Vector2_countable : Countable Vector2.
Proof.
  apply (inj_countable' (λ p, (x p, y p)) (λ q, mkVector2 q.1 q.2)).
  by intros [].
Defined.

(** ** Python lists *)

Definition len {A : Type} (l : list A) : Z := Z.of_nat (length l).

(** [l[i]]: a negative index counts from the end, an index out of range
    raises [IndexError]. *)
Definition getitem {A : Type} (l : list A) (i : Z) : result A :=
  let j := if i <? 0 then i + len l else i in
  if (j <? 0) || (len l <=? j) then Raise IndexError
  else match l !! Z.to_nat j with
       | Some a => Ok a
       | None => Raise IndexError
       end.

(** [str.split()] and [int] are builtins of Python: [World_init] and [main]
    take them as the parameters [split] and [int], and what is proved of them
    holds whatever the builtins answer.

    The function below is [str.split()] on text whose white space is ASCII
    (the characters 9 to 13, 28 to 31 and 32); on other text Python also
    splits at the white space of Unicode, which this function does not
    know.  It fills the parameter in the examples, whose text is ASCII. *)
Definition is_ascii_space (a : ascii) : bool :=
  let n := nat_of_ascii a in
  ((9 <=? n)%nat && (n <=? 13)%nat) || (n =? 32)%nat
  || ((28 <=? n)%nat && (n <=? 31)%nat).

Fixpoint split_ascii_from (word : string) (s : string) : list string :=
  match s with
  | EmptyString => if decide (word = EmptyString) then [] else [word]
  | String a rest =>
      if is_ascii_space a then
        if decide (word = EmptyString) then split_ascii_from EmptyString rest
        else word :: split_ascii_from EmptyString rest
      else split_ascii_from (word +:+ String a EmptyString) rest
  end.

Definition split_ascii (s : string) : list string := split_ascii_from EmptyString s.

(** ** PriorityQueue *)

Section PriorityQueue.
Context {A : Type}.

(** [self.data]: the (priority, data) pairs. *)
Definition PriorityQueue : Type := list (Z * A).

Definition PriorityQueue_init : PriorityQueue := [].

Definition empty (self : PriorityQueue) : bool :=
  match self with
  | [] => true
  | _ :: _ => false
  end.

Definition put (self : PriorityQueue) (d : A) (priority : Z) : PriorityQueue :=
  self ++ [(priority, d)].

(** [list.sort(key=lambda x: x[0])] is a stable sort on the priority.  The
    stable sorted arrangement of a list is unique, so it is computed by
    insertion: an entry goes in front of the first later entry whose
    priority is not smaller. *)
Fixpoint sort_insert (e : Z * A) (l : list (Z * A)) : list (Z * A) :=
  match l with
  | [] => [e]
  | e' :: l' => if e.1 <=? e'.1 then e :: e' :: l' else e' :: sort_insert e l'
  end.

Fixpoint sort (l : list (Z * A)) : list (Z * A) :=
  match l with
  | [] => []
  | e :: l' => sort_insert e (sort l')
  end.

(** [pop] answers the value returned and the queue it leaves. *)
Definition pop (self : PriorityQueue) : option A * PriorityQueue :=
  if empty self then (None, self)
  else match sort self with
       | [] => (None, [])
       | e :: rest => (Some e.2, rest)
       end.
End PriorityQueue.

Arguments PriorityQueue A : clear implicits.

(** ** World *)

Record World : Type := mkWorld {
  data : list (list string);
  width : Z;
  height : Z
}.

Definition World_init (split : string → list string) (environment_data : list string)
    : result World :=
  let d := split <$> environment_data in
  let* row0 := getitem d 0 in
  Ok {| data := d; width := len row0; height := len d |}.

Definition point_inside (self : World) (the_point : Vector2) : bool :=
  (0 <=? x the_point) && (x the_point <? width self)
  && ((0 <=? y the_point) && (y the_point <? height self)).

(** [self[key]] for a point: [self.data[y][x]]. *)
Definition World_getitem (self : World) (key : Vector2) : result string :=
  let* row := getitem (data self) (y key) in
  getitem row (x key).

Definition is_empty (self : World) (the_point : Vector2) : result bool :=
  let* tok := World_getitem self the_point in
  Ok (bool_decide (tok = "0"%string)).

Definition potential (the_point : Vector2) : list Vector2 :=
  [ mkVector2 (x the_point - 1) (y the_point);
    mkVector2 (x the_point + 1) (y the_point);
    mkVector2 (x the_point) (y the_point + 1);
    mkVector2 (x the_point) (y the_point - 1) ].

(** The [for neighbour in potential] loop, from the list collected so far. *)
Fixpoint neighbours_loop (self : World) (the_neighbours : list Vector2)
    (todo : list Vector2) : result (list Vector2) :=
  match todo with
  | [] => Ok the_neighbours
  | neighbour :: todo' =>
      if point_inside self neighbour then
        let* e := is_empty self neighbour in
        if e then neighbours_loop self (the_neighbours ++ [neighbour]) todo'
        else neighbours_loop self the_neighbours todo'
      else neighbours_loop self the_neighbours todo'
  end.

Definition neighbours (self : World) (the_point : Vector2) : result (list Vector2) :=
  neighbours_loop self [] (potential the_point).

(** ** The heuristic *)

Definition cartesian_distance (pos1 pos2 : Vector2) : Z :=
  Z.abs (x pos1 - x pos2) + Z.abs (y pos1 - y pos2).

Arguments point_inside : simpl never.
Arguments is_empty : simpl never.
Arguments neighbours : simpl never.
Arguments cartesian_distance : simpl never.

(** ** a_star *)

(** The three local variables the main loop updates. *)
Record state : Type := mkState {
  looking_at : PriorityQueue Vector2;
  parent : gmap Vector2 (option Vector2);
  cost : gmap Vector2 Z
}.

Definition a_star_init (the_start : Vector2) : state :=
  {| looking_at := put PriorityQueue_init the_start 0;
     parent := {[ the_start := None ]};
     cost := {[ the_start := 0 ]} |}.

(** One pass of the body of [for new_point in the_world.neighbours(current)]. *)
Definition visit (the_end current : Vector2) (st : state) (new_point : Vector2)
    : result state :=
  match cost st !! current with
  | None => Raise KeyError
  | Some c =>
      let new_cost := c + 1 in
      let better :=
        match cost st !! new_point with
        | None => true
        | Some old => new_cost <? old
        end in
      if better then
        let cost' := <[ new_point := new_cost ]> (cost st) in
        let priority := new_cost + cartesian_distance the_end new_point in
        Ok {| looking_at := put (looking_at st) new_point priority;
              parent := <[ new_point := Some current ]> (parent st);
              cost := cost' |}
      else Ok st
  end.

Fixpoint visit_all (the_end current : Vector2) (st : state) (todo : list Vector2)
    : result state :=
  match todo with
  | [] => Ok st
  | new_point :: todo' =>
      let* st' := visit the_end current st new_point in
      visit_all the_end current st' todo'
  end.

Arguments visit : simpl never.

(** How the main loop was left: by [break], or because its condition failed. *)
Inductive loop_exit : Type :=
  | GoalReached
  | FrontierEmpty.

Fixpoint a_star_loop (fuel : nat) (the_end : Vector2) (the_world : World)
    (st : state) : option (result (loop_exit * state)) :=
  match fuel with
  | O => None
  | S fuel' =>
      if empty (looking_at st) then Some (Ok (FrontierEmpty, st))
      else
        match pop (looking_at st) with
        | (None, _) => Some (Raise AttributeError)
        | (Some current, q) =>
            let st1 := {| looking_at := q; parent := parent st; cost := cost st |} in
            if decide (current = the_end) then Some (Ok (GoalReached, st1))
            else
              match neighbours the_world current with
              | Ok ns =>
                  match visit_all the_end current st1 ns with
                  | Ok st2 => a_star_loop fuel' the_end the_world st2
                  | Raise e => Some (Raise e)
                  | SysExit msg => Some (SysExit msg)
                  end
              | Raise e => Some (Raise e)
              | SysExit msg => Some (SysExit msg)
              end
        end
  end.

(** The loop that follows [parent] backwards.  A [KeyError] is caught and
    turned into [err].  [parent] maps the start alone to [None]; were that
    entry read, the next pass would look [None] up and fail the same way. *)
Fixpoint follow (fuel : nat) (parents : gmap Vector2 (option Vector2))
    (the_start the_point : Vector2) (the_path : list Vector2)
    : option (result (list Vector2)) :=
  match fuel with
  | O => None
  | S fuel' =>
      if decide (the_point = the_start) then Some (Ok the_path)
      else
        match parents !! the_point with
        | None => Some (err "No path could be found.")
        | Some None => Some (err "No path could be found.")
        | Some (Some p) => follow fuel' parents the_start p (the_path ++ [p])
        end
  end.

Definition a_star (fuel : nat) (the_start the_end : Vector2) (the_world : World)
    : option (result (list Vector2)) :=
  match a_star_loop fuel the_end the_world (a_star_init the_start) with
  | None => None
  | Some (Ok (_, st)) =>
      match follow fuel (parent st) the_start the_end [the_end] with
      | None => None
      | Some (Ok the_path) => Some (Ok (reverse the_path))
      | Some (Raise e) => Some (Raise e)
      | Some (SysExit msg) => Some (SysExit msg)
      end
  | Some (Raise e) => Some (Raise e)
  | Some (SysExit msg) => Some (SysExit msg)
  end.

(** ** The directional encoder of the main program *)

(** What the [for point in path] loop prints, from [prev_point] and
    [displayed] as they stand. *)
Fixpoint encode_loop (prev_point : option Vector2) (displayed : bool)
    (path : list Vector2) : string :=
  match path with
  | [] => EmptyString
  | point :: path' =>
      match prev_point with
      | None => encode_loop (Some point) displayed path'
      | Some prev =>
          let sep := if displayed then " "%string else EmptyString in
          let letter :=
            if x prev <? x point then "R"%string
            else if x point <? x prev then "L"%string
            else if y prev <? y point then "D"%string
            else "U"%string in
          (sep +:+ letter) +:+ encode_loop (Some point) true path'
      end
  end.

(** The loop's output followed by the final [print()]. *)
Definition encode (path : list Vector2) : string :=
  encode_loop None false path +:+ String (ascii_of_nat 10) EmptyString.

(** ** Grids, passable cells and routes *)

#[global] Instance exn_eq_dec : EqDecision exn.
Proof. solve_decision. Defined.

#[global] Instance result_eq_dec {A : Type} `{EqDecision A} : EqDecision (result A).
Proof. solve_decision. Defined.

(** The invariant of a grid: there is a first row, [height] counts the rows
    and every row has [width] entries. *)
Definition grid (w : World) : Prop :=
  data w ≠ [] ∧ height w = len (data w) ∧ Forall (λ row, len row = width w) (data w).

(** The input format: every entry is the token 0 or the token 1. *)
Definition binary (w : World) : Prop :=
  Forall (Forall (λ tok, tok = "0"%string ∨ tok = "1"%string)) (data w).

(** A cell is marked as an obstacle when its entry is the token 1, the test
    [graphical_route] uses to draw a wall. *)
Definition obstacle (w : World) (p : Vector2) : Prop :=
  World_getitem w p = Ok "1"%string.

(** A cell the search may step on: inside the world and empty. *)
Definition passable (w : World) (p : Vector2) : Prop :=
  point_inside w p = true ∧ is_empty w p = Ok true.

#[global] Instance passable_dec w p : Decision (passable w p).
Proof. unfold passable. apply _. Defined.

(** The 3 by 3 fixture of the specification. *)
Definition test_world : World :=
  {| data := [ ["0"; "0"; "1"]; ["1"; "0"; "1"]; ["0"; "0"; "0"] ]%string;
     width := 3; height := 3 |}.

(** ** The queue next to its insertion history *)

Section Chronology.
Context {A : Type}.

(** Where [put] followed by a sort leaves a new entry: behind every entry
    whose priority is not larger. *)
Fixpoint insert_last (e : Z * A) (l : list (Z * A)) : list (Z * A) :=
  match l with
  | [] => [e]
  | e' :: l' => if e.1 <? e'.1 then e :: e' :: l' else e' :: insert_last e l'
  end.

Definition by_priority : relation (Z * A) := λ e1 e2, e1.1 <= e2.1.

(** The calls a client makes. *)
Inductive op : Type :=
  | Put (d : A) (priority : Z)
  | Pop.

(** In a list kept in insertion order: the position and priority of the
    earliest of the entries of least priority. *)
Fixpoint earliest_min (h : list (Z * A)) : option (nat * Z) :=
  match h with
  | [] => None
  | e :: h' =>
      match earliest_min h' with
      | None => Some (0%nat, e.1)
      | Some (i, p) => if e.1 <=? p then Some (0%nat, e.1) else Some (S i, p)
      end
  end.

(** The entries still queued, in insertion order, once that entry left. *)
Definition chrono_pop (h : list (Z * A)) : list (Z * A) :=
  match earliest_min h with
  | None => h
  | Some (i, _) => delete i h
  end.

(** Runs the calls on the queue [q] of the program and, next to it, on the
    list [h] of the queued entries in insertion order. *)
Fixpoint run (ops : list op) (q : PriorityQueue A) (h : list (Z * A))
    : PriorityQueue A * list (Z * A) :=
  match ops with
  | [] => (q, h)
  | Put d priority :: ops' => run ops' (put q d priority) (h ++ [(priority, d)])
  | Pop :: ops' => run ops' (pop q).2 (chrono_pop h)
  end.
End Chronology.

Arguments op A : clear implicits.

(** ** Routes *)

(** Consecutive cells are one step apart. *)
Fixpoint stepwise (l : list Vector2) : Prop :=
  match l with
  | a :: l' =>
      match l' with
      | b :: _ => cartesian_distance a b = 1 ∧ stepwise l'
      | [] => True
      end
  | [] => True
  end.

(** A 4-directional passable route from [s] to [e]. *)
Definition route (w : World) (s e : Vector2) (l : list Vector2) : Prop :=
  head l = Some s ∧ last l = Some e ∧ Forall (passable w) l ∧ stepwise l.

(** The number of edges of a path. *)
Definition edges (l : list Vector2) : Z := len l - 1.

(** [d] is the length of the shortest route from [s] to [e]. *)
Definition shortest (w : World) (s e : Vector2) (d : Z) : Prop :=
  (∃ l, route w s e l ∧ edges l = d) ∧ ∀ l, route w s e l → d <= edges l.

(** ** The search graph and the invariant of the main loop *)

(** The search moves from [p] to [q]. *)
Definition edge (w : World) (p q : Vector2) : Prop :=
  q ∈ potential p ∧ passable w q.

(** [walk w s c d]: [d] moves lead from [s] to [c]. *)
Inductive walk (w : World) (s : Vector2) : Vector2 → Z → Prop :=
  | walk_start : walk w s s 0
  | walk_step c q d : walk w s c d → edge w c q → walk w s q (d + 1).

(** Every neighbour of [c] has a cost at most one more than that of [c]. *)
Definition closed (w : World) (st : state) (c : Vector2) : Prop :=
  ∃ k, cost st !! c = Some k
       ∧ ∀ q, edge w c q → ∃ kq, cost st !! q = Some kq ∧ kq <= k + 1.

(** The invariant, at the head of the loop ([cur = None]) and while the
    neighbours of the cell [n] just popped are visited ([cur = Some n]). *)
Record inv (w : World) (s e : Vector2) (cur : option Vector2) (st : state) : Prop := {
  inv_start_cost : cost st !! s = Some 0;
  inv_start_parent : parent st !! s = Some None;
  inv_nonneg : ∀ c k, cost st !! c = Some k → 0 <= k;
  inv_parent : ∀ c k, cost st !! c = Some k → c ≠ s →
    ∃ p kp, parent st !! c = Some (Some p) ∧ cost st !! p = Some kp
            ∧ kp + 1 <= k ∧ edge w p c;
  inv_parent_dom : ∀ c, cost st !! c = None → parent st !! c = None;
  inv_queue : ∀ f c, (f, c) ∈ looking_at st →
    ∃ k, cost st !! c = Some k ∧ (k + cartesian_distance e c <= f ∨ c = s);
  inv_pending : ∀ c k, cost st !! c = Some k → Some c ≠ cur →
    (∃ f, (f, c) ∈ looking_at st ∧ f <= k + cartesian_distance e c)
    ∨ closed w st c;
  inv_goal : ∀ k, e ≠ s → cost st !! e = Some k → ∃ f, (f, e) ∈ looking_at st
}.

(** Every cell with a cost keeps one, and none gets a larger one. *)
Definition cost_le (c1 c2 : gmap Vector2 Z) : Prop :=
  ∀ c k, c1 !! c = Some k → ∃ k', c2 !! c = Some k' ∧ k' <= k.

(** The state once [visit] found [new_point] cheaper through [current]. *)
Definition improved (the_end current : Vector2) (st : state) (new_point : Vector2)
    (new_cost : Z) : state :=
  {| looking_at :=
       put (looking_at st) new_point (new_cost + cartesian_distance the_end new_point);
     parent := <[ new_point := Some current ]> (parent st);
     cost := <[ new_point := new_cost ]> (cost st) |}.

(** The cells [follow] goes through from [c], [c] itself left out. *)
Inductive chain (w : World) (s : Vector2) (st : state) : Vector2 → list Vector2 → Prop :=
  | chain_start : chain w s st s []
  | chain_step c p l :
      c ≠ s → parent st !! c = Some (Some p) → edge w p c →
      chain w s st p l → chain w s st c (p :: l).

(** What holds of the state [st'] the main loop ends in: it has the maps of
    a state [st0] met at the head of the loop, where the goal had its least
    cost or the queue was empty. *)
Definition loop_post (w : World) (s e : Vector2) (ex : loop_exit) (st' : state) : Prop :=
  ∃ st0, inv w s e None st0 ∧ parent st' = parent st0 ∧ cost st' = cost st0
         ∧ match ex with
           | GoalReached =>
               pop (looking_at st0) = (Some e, looking_at st')
               ∧ ∃ k, cost st0 !! e = Some k ∧ ∀ d, walk w s e d → k <= d
           | FrontierEmpty => looking_at st0 = [] ∧ looking_at st' = []
           end.

(** [passes e w k st st']: [k] passes of the main loop in a row, none of which
    breaks, lead from the state [st] at the head of the loop to the state
    [st'] at its head. *)
Inductive passes (the_end : Vector2) (the_world : World) : nat → state → state → Prop :=
  | passes_none st : passes the_end the_world 0 st st
  | passes_more k st current q ns st2 st3 :
      empty (looking_at st) = false →
      pop (looking_at st) = (Some current, q) →
      current ≠ the_end →
      neighbours the_world current = Ok ns →
      visit_all the_end current
        {| looking_at := q; parent := parent st; cost := cost st |} ns = Ok st2 →
      passes the_end the_world k st2 st3 →
      passes the_end the_world (S k) st st3.

(** ** The measure of the main loop *)

Definition all_cells (w : World) : list Vector2 :=
  j ← seqZ 0 (height w); i ← seqZ 0 (width w); [mkVector2 i j].

(** The cells that can ever get a cost. *)
Definition cells (w : World) (s : Vector2) : gset Vector2 :=
  {[ s ]} ∪ list_to_set (all_cells w).

Definition sumZ {A : Type} (f : A → Z) (l : list A) : Z :=
  foldr (λ a acc, f a + acc) 0 l.

(** What a cell still has to lose: its cost, or more than any cost. *)
Definition slack (B : Z) (st : state) (c : Vector2) : Z :=
  match cost st !! c with
  | None => B + 1
  | Some k => k
  end.

Definition measure (w : World) (s : Vector2) (st : state) : Z :=
  len (looking_at st)
  + 2 * sumZ (slack (Z.of_nat (size (cells w s))) st) (elements (cells w s)).

(** ** Reading the encoder's output back *)

(** The convention of the specification: R is x+1, L is x-1, D is y+1 and
    U is y-1; any other character (the separating space, the final newline)
    moves nowhere. *)
Definition move (a : ascii) (p : Vector2) : option Vector2 :=
  if Ascii.eqb a "R" then Some (mkVector2 (x p + 1) (y p))
  else if Ascii.eqb a "L" then Some (mkVector2 (x p - 1) (y p))
  else if Ascii.eqb a "D" then Some (mkVector2 (x p) (y p + 1))
  else if Ascii.eqb a "U" then Some (mkVector2 (x p) (y p - 1))
  else None.

(** The cells reached by taking the letters of [text] one step at a time
    from [p]. *)
Fixpoint replay (p : Vector2) (text : string) : list Vector2 :=
  match text with
  | EmptyString => []
  | String a rest =>
      match move a p with
      | Some p' => p' :: replay p' rest
      | None => replay p rest
      end
  end.

(** Every recorded parent is one step away from its child. *)
Definition adjacent_parents (parents : gmap Vector2 (option Vector2)) : Prop :=
  ∀ c p, parents !! c = Some (Some p) → c ∈ potential p.

(** ** The successive values of [cost] *)

(** The states after each pass of the [for] loop. *)
Fixpoint visit_all_trace (the_end current : Vector2) (st : state)
    (todo : list Vector2) : list state :=
  match todo with
  | [] => []
  | new_point :: todo' =>
      match visit the_end current st new_point with
      | Ok st' => st' :: visit_all_trace the_end current st' todo'
      | _ => []
      end
  end.

(** The states after each pass of the [for] loop, over the first [fuel]
    passes of the main loop. *)
Fixpoint a_star_trace (fuel : nat) (the_end : Vector2) (the_world : World)
    (st : state) : list state :=
  match fuel with
  | O => []
  | S fuel' =>
      if empty (looking_at st) then []
      else
        match pop (looking_at st) with
        | (None, _) => []
        | (Some current, q) =>
            let st1 := {| looking_at := q; parent := parent st; cost := cost st |} in
            if decide (current = the_end) then []
            else
              match neighbours the_world current with
              | Ok ns =>
                  visit_all_trace the_end current st1 ns
                  ++ match visit_all the_end current st1 ns with
                     | Ok st2 => a_star_trace fuel' the_end the_world st2
                     | _ => []
                     end
              | _ => []
              end
        end
  end.

(** The cost map at the start and after every pass of the [for] loop, the
    only place that assigns to it. *)
Definition cost_history (fuel : nat) (the_start the_end : Vector2)
    (the_world : World) : list (gmap Vector2 Z) :=
  cost <$> (a_star_init the_start
            :: a_star_trace fuel the_end the_world (a_star_init the_start)).

(** What one pass may do to the cost map: nothing, or one assignment, to a
    cell without a cost or to a cell whose cost is strictly larger. *)
Definition cost_write (c1 c2 : gmap Vector2 Z) : Prop :=
  c2 = c1
  ∨ ∃ p k, c2 = <[ p := k ]> c1
           ∧ (c1 !! p = None ∨ ∃ old, c1 !! p = Some old ∧ k < old).

(** Each element is related to the next, from [a] on. *)
Fixpoint linked {A : Type} (R : relation A) (a : A) (l : list A) : Prop :=
  match l with
  | [] => True
  | b :: l' => R a b ∧ linked R b l'
  end.

(** A sample run: after these calls the program holds [sample_queue] (the
    first [pop] sorted it) and the entries queued are, in insertion order,
    [sample_history]. *)
Definition sample_ops : list (op string) :=
  [ Put "a"%string 2; Put "b"%string 1; Put "c"%string 1; Pop;
    Put "d"%string 1; Put "e"%string 0; Put "f"%string 0 ].

Definition sample_queue : list (Z * string) :=
  [ (1, "c"%string); (2, "a"%string); (1, "d"%string); (0, "e"%string); (0, "f"%string) ].

Definition sample_history : list (Z * string) :=
  [ (2, "a"%string); (1, "c"%string); (1, "d"%string); (0, "e"%string); (0, "f"%string) ].

(** The open 5 by 5 grid of the specification. *)
Definition open_world : World :=
  {| data := replicate 5 (replicate 5 "0"%string); width := 5; height := 5 |}.

(** A world without walls: every cell inside it is empty. *)
Definition unobstructed (w : World) : Prop :=
  ∀ p, point_inside w p = true → is_empty w p = Ok true.

(** [n] calls of [pop] in a row: the values returned, up to the first call
    that finds the queue empty. *)
Fixpoint drain {A : Type} (n : nat) (q : PriorityQueue A) : list A :=
  match n with
  | O => []
  | S n' =>
      match pop q with
      | (Some d, q') => d :: drain n' q'
      | (None, _) => []
      end
  end.

(** ** graphical_route *)

Definition newline : ascii := ascii_of_nat 10.

(** The text of the first [print]: the key, between two empty lines. *)
Definition key_text : string :=
  String newline
    ("Key:" +:+ String newline
       ("@ - Origin" +:+ String newline
          ("$ - Destination" +:+ String newline
             ("X - Wall" +:+ String newline
                ("o - Path" +:+ String newline
                   (". - Empty space" +:+ String newline
                      (String newline EmptyString))))))).

(** The character the [if] chain adds for [the_point]. *)
Definition mark (the_world : World) (the_path : list Vector2) (the_point : Vector2)
    : result ascii :=
  let* first := getitem the_path 0 in
  if decide (the_point = first) then Ok "@"%char
  else
    let* final := getitem the_path (-1) in
    if decide (the_point = final) then Ok "$"%char
    else if decide (the_point ∈ the_path) then Ok "o"%char
    else
      let* tok := World_getitem the_world the_point in
      if decide (tok = "1"%string) then Ok "X"%char else Ok "."%char.

(** The loop [for x in range(the_world.width)], over the values of x still
    to come, from [to_display] as it stands. *)
Fixpoint graphical_row (the_world : World) (the_path : list Vector2) (j : Z)
    (to_display : string) (xs : list Z) : result string :=
  match xs with
  | [] => Ok to_display
  | i :: xs' =>
      let* c := mark the_world the_path (mkVector2 i j) in
      graphical_row the_world the_path j (to_display +:+ String c EmptyString) xs'
  end.

(** The loop [for y in range(the_world.height)]. *)
Fixpoint graphical_rows (the_world : World) (the_path : list Vector2)
    (to_display : string) (ys : list Z) : result string :=
  match ys with
  | [] => Ok to_display
  | j :: ys' =>
      let* t := graphical_row the_world the_path j to_display
                  (seqZ 0 (width the_world)) in
      graphical_rows the_world the_path (t +:+ String newline EmptyString) ys'
  end.

(** What [graphical_route] prints, and how it ends: the key is out before
    the picture is computed. *)
Definition graphical_route (the_world : World) (the_path : list Vector2)
    : string * result unit :=
  match graphical_rows the_world the_path EmptyString (seqZ 0 (height the_world)) with
  | Ok to_display => (key_text +:+ to_display, Ok tt)
  | Raise ex => (key_text, Raise ex)
  | SysExit msg => (key_text, SysExit msg)
  end.

(** The characters of the lines [rows], each line closed by a newline. *)
Definition lines_text (rows : list (list ascii)) : string :=
  String.string_of_list_ascii (mjoin ((λ r, r ++ [newline]) <$> rows)).

(** ** The main program *)

(** How a run of the program ends: by reaching the end of the script, through
    [err] (exit status 1), or with an exception nobody catches. *)
Inductive ending : Type :=
  | Finished
  | Exited
  | Failed (ex : exn)
  | FailedValueError.

(** What [err] leaves behind: the message on a line of its own, exit. *)
Definition says (msg : string) : string * ending :=
  (msg +:+ String newline EmptyString, Exited).

(** A step of the script that prints nothing itself. *)
Definition step {A : Type} (r : result A) (k : A → option (string * ending))
    : option (string * ending) :=
  match r with
  | Ok a => k a
  | Raise ex => Some (EmptyString, Failed ex)
  | SysExit msg => Some (says msg)
  end.

(** The last statement of the script: the picture when graphics are enabled,
    the directions otherwise. *)
Definition present (graphics_enabled : bool) (world : World) (path : list Vector2)
    : string * ending :=
  if graphics_enabled then
    match graphical_route world path with
    | (out, Ok _) => (out, Finished)
    | (out, Raise ex) => (out, Failed ex)
    | (out, SysExit msg) => (out +:+ (says msg).1, Exited)
    end
  else (encode path, Finished).

Section Main.
(** The builtin [str.split] with no argument. *)
Variable split : string → list string.

(** The builtin [int] on a string: the number read, or [None] for the
    [ValueError] it raises on a string that is no number. *)
Variable int : string → option Z.

(** The script from the test for the environment file on.  [env_file] is
    [None] when the file does not exist and the lines [readlines] gives
    otherwise; the other arguments are the parsed command line.  The result
    is the text printed and the way the run ends, [None] when the fuel of the
    search runs out. *)
Definition main (fuel : nat) (graphics_enabled : bool) (env_file : option (list string))
    (origin_x origin_y destination_x destination_y : Z) : option (string * ending) :=
  match env_file with
  | None => Some (says "Specified environment file does not exist.")
  | Some env_data =>
      step (getitem env_data 0) (λ line,
      let env_size := split line in
      step (getitem env_size 0) (λ size0,
      match int size0 with
      | None => Some (EmptyString, FailedValueError)
      | Some _ =>
      step (getitem env_size 1) (λ size1,
      match int size1 with
      | None => Some (EmptyString, FailedValueError)
      | Some _ =>
      let env_data := drop 1 env_data in
      step (World_init split env_data) (λ world,
      let start := mkVector2 origin_x origin_y in
      if negb (point_inside world start)
      then Some (says "Starting coordinates are out of world.")
      else
      let end_ := mkVector2 destination_x destination_y in
      if negb (point_inside world end_)
      then Some (says "Ending coordinates are out of the world.")
      else
      step (is_empty world start) (λ start_empty,
      if negb start_empty
      then Some (says "Starting point is on a non-empty space.")
      else
      step (is_empty world end_) (λ end_empty,
      if negb end_empty
      then Some (says "Ending point is on a non-empty space.")
      else
      match a_star fuel start end_ world with
      | None => None
      | Some r =>
          step r (λ path, Some (present graphics_enabled world path))
      end)))
      end)
      end))
  end.
End Main.

(** The messages of [err] in the program. *)
Definition messages : list string :=
  [ "Specified environment file does not exist.";
    "Starting coordinates are out of world.";
    "Ending coordinates are out of the world.";
    "Starting point is on a non-empty space.";
    "Ending point is on a non-empty space.";
    "No path could be found." ]%string.

(** The lines of a file after the first are rows of equally many tokens. *)
Definition rectangular (split : string → list string) (env_data : list string) : Prop :=
  ∃ n, Forall (λ line, len (split line) = n) (drop 1 env_data).

(** The first line of a file starts with two tokens that [int] reads. *)
Definition sized (split : string → list string) (int : string → option Z)
    (env_data : list string) : Prop :=
  ∃ line size0 size1 rest,
    head env_data = Some line ∧ split line = size0 :: size1 :: rest
    ∧ is_Some (int size0) ∧ is_Some (int size1).

(** * Properties *)

(** ** Lists and the world *)

Lemma getitem_inside {A : Type} (l : list A) (i : Z) :
  0 <= i < len l → ∃ a, getitem l i = Ok a ∧ l !! Z.to_nat i = Some a.
Proof.
  intros Hi. unfold getitem.
  destruct (i <? 0) eqn:Hneg; [lia|].
  destruct ((i <? 0) || (len l <=? i)) eqn:Hout; [lia|].
  destruct (l !! Z.to_nat i) as [a|] eqn:Hl; [by exists a|].
  apply lookup_ge_None in Hl. unfold len in Hi. lia.
Qed.

Lemma World_init_grid (split : string → list string) (env : list string) (w : World) :
  World_init split env = Ok w →
  data w ≠ [] ∧ height w = len (data w) ∧ (∃ row0, data w !! 0%nat = Some row0 ∧ width w = len row0).
Proof.
  unfold World_init. destruct (split <$> env) as [|row0 d] eqn:Hd; [done|].
  cbn. intros [= <-]. cbn. split; [done|]. split; [done|]. by exists row0.
Qed.

Lemma World_getitem_inside (w : World) (p : Vector2) :
  grid w → point_inside w p = true →
  ∃ row tok, World_getitem w p = Ok tok
             ∧ data w !! Z.to_nat (y p) = Some row ∧ row !! Z.to_nat (x p) = Some tok.
Proof.
  intros (_ & Hh & Hrows) Hin. unfold point_inside in Hin.
  destruct (getitem_inside (data w) (y p)) as (row & Hrow & Hl); [lia|].
  assert (len row = width w) as Hlen.
  { by eapply Forall_lookup_1 in Hrows. }
  destruct (getitem_inside row (x p)) as (tok & Htok & Hl'); [lia|].
  exists row, tok. unfold World_getitem. rewrite Hrow. by cbn.
Qed.

Lemma is_empty_inside (w : World) (p : Vector2) :
  grid w → point_inside w p = true → ∃ b, is_empty w p = Ok b.
Proof.
  intros Hg Hin. destruct (World_getitem_inside w p Hg Hin) as (row & tok & Ht & _).
  unfold is_empty. rewrite Ht. cbn. eauto.
Qed.

Lemma neighbours_loop_filter (w : World) (acc todo : list Vector2) :
  grid w → neighbours_loop w acc todo = Ok (acc ++ filter (passable w) todo).
Proof.
  intros Hg. revert acc. induction todo as [|q todo IH]; intros acc.
  { cbn. by rewrite app_nil_r. }
  rewrite filter_cons. cbn [neighbours_loop].
  destruct (decide (passable w q)) as [[Hin He]|Hn].
  - rewrite Hin, He. cbn. rewrite IH. by rewrite <- app_assoc.
  - destruct (point_inside w q) eqn:Hin; [|apply IH].
    destruct (is_empty_inside w q Hg Hin) as [b Hb]. rewrite Hb. cbn.
    destruct b; [|apply IH]. exfalso. by apply Hn.
Qed.

Lemma neighbours_filter (w : World) (p : Vector2) :
  grid w → neighbours w p = Ok (filter (passable w) (potential p)).
Proof. intros Hg. unfold neighbours. by rewrite neighbours_loop_filter. Qed.

Lemma grid_test_world : grid test_world.
Proof. split; [done|]. split; [done|]. repeat constructor. Qed.

Lemma binary_test_world : binary test_world.
Proof.
  unfold binary, test_world; cbn.
  repeat first [ apply Forall_nil_2 | apply Forall_cons_2 | by left | by right ].
Qed.

(** ** The priority queue *)

Section PriorityQueueFacts.
Context {A : Type}.
Implicit Types (e : Z * A) (l h q : list (Z * A)).

Lemma sort_insert_perm e l : sort_insert e l ≡ₚ e :: l.
Proof.
  induction l as [|e' l IH]; cbn; [done|].
  destruct (e.1 <=? e'.1); [done|]. rewrite IH. apply Permutation_swap.
Qed.

Lemma sort_perm l : sort l ≡ₚ l.
Proof.
  induction l as [|e l IH]; cbn; [done|]. by rewrite sort_insert_perm, IH.
Qed.

Lemma sort_insert_sorted e l :
  Sorted by_priority l → Sorted by_priority (sort_insert e l).
Proof.
  induction 1 as [|e' l Hs IH Hhd]; cbn.
  { repeat constructor. }
  destruct (e.1 <=? e'.1) eqn:Hle.
  - constructor; [by constructor|]. constructor. unfold by_priority. lia.
  - constructor; [done|]. destruct Hhd as [|e'' l Hr]; cbn.
    + constructor. unfold by_priority. lia.
    + destruct (e.1 <=? e''.1); constructor; unfold by_priority in *; lia.
Qed.

Lemma sort_sorted l : Sorted by_priority (sort l).
Proof. induction l; cbn; [constructor|]. by apply sort_insert_sorted. Qed.

Lemma sort_fixed l : Sorted by_priority l → sort l = l.
Proof.
  induction 1 as [|e l Hs IH Hhd]; cbn; [done|]. rewrite IH.
  destruct Hhd as [|e' l Hr]; cbn; [done|].
  unfold by_priority in Hr. destruct (e.1 <=? e'.1) eqn:Hle; [done|lia].
Qed.

Lemma sort_insert_insert_last a e l :
  sort_insert a (insert_last e l) = insert_last e (sort_insert a l).
Proof.
  induction l as [|b l IH]; cbn.
  { destruct (a.1 <=? e.1) eqn:H1, (e.1 <? a.1) eqn:H2; cbn; try done; lia. }
  destruct (e.1 <? b.1) eqn:H1, (a.1 <=? b.1) eqn:H2; cbn;
    rewrite ?H1, ?H2; cbn.
  - destruct (a.1 <=? e.1) eqn:H3, (e.1 <? a.1) eqn:H4; cbn;
      rewrite ?H1, ?H2; try done; lia.
  - destruct (a.1 <=? e.1) eqn:H3; [lia|]. done.
  - destruct (e.1 <? a.1) eqn:H3; [lia|]. done.
  - by rewrite IH.
Qed.

Lemma sort_snoc l e : sort (l ++ [e]) = insert_last e (sort l).
Proof.
  induction l as [|a l IH]; cbn; [done|].
  by rewrite IH, sort_insert_insert_last.
Qed.

Lemma earliest_min_None h : earliest_min h = None → h = [].
Proof.
  destruct h as [|e h]; cbn; [done|].
  destruct (earliest_min h) as [[i p]|]; [|done]. by destruct (e.1 <=? p).
Qed.

(** [earliest_min] finds an entry of least priority, and the first such. *)
Lemma earliest_min_spec h i p :
  earliest_min h = Some (i, p) →
  ∃ d, h !! i = Some (p, d)
       ∧ ∀ j p' d', h !! j = Some (p', d') → p <= p' ∧ (p' = p → (i ≤ j)%nat).
Proof.
  revert i p. induction h as [|e h IH]; intros i p; cbn; [done|].
  destruct (earliest_min h) as [[i0 p0]|] eqn:Hm.
  - destruct (IH i0 p0 eq_refl) as (d0 & Hd0 & Hmin).
    destruct (e.1 <=? p0) eqn:Hle; intros [= <- <-].
    + exists e.2. split; [by destruct e|].
      intros [|j] p' d' Hj; cbn in Hj.
      * injection Hj as ->. cbn. split; [lia|]. intros _. lia.
      * destruct (Hmin j p' d' Hj). split; [lia|]. intros _. lia.
    + exists d0. split; [done|].
      intros [|j] p' d' Hj; cbn in Hj.
      * injection Hj as ->. cbn in *. split; [lia|]. intros ->. lia.
      * destruct (Hmin j p' d' Hj) as [? Hi]. split; [done|]. intros ->.
        specialize (Hi eq_refl). lia.
  - apply earliest_min_None in Hm as ->. intros [= <- <-].
    exists e.2. split; [by destruct e|].
    intros [|j] p' d' Hj; cbn in Hj; [|done].
    injection Hj as ->. cbn. split; [lia|]. intros _. lia.
Qed.

(** The stable sort puts that entry first and leaves the others as the
    sort of the history without it. *)
Lemma earliest_min_sort h i p :
  earliest_min h = Some (i, p) →
  ∃ e, h !! i = Some e ∧ e.1 = p ∧ sort h = e :: sort (delete i h).
Proof.
  revert i p. induction h as [|a h IH]; intros i p; cbn; [done|].
  destruct (earliest_min h) as [[i0 p0]|] eqn:Hm.
  - destruct (IH i0 p0 eq_refl) as (e0 & He0 & Hp0 & Hs).
    destruct (a.1 <=? p0) eqn:Hle; intros [= <- <-].
    + exists a. split; [done|]. split; [done|]. cbn.
      rewrite Hs. cbn. rewrite Hp0, Hle. done.
    + exists e0. split; [done|]. split; [done|]. cbn.
      rewrite Hs. cbn. rewrite Hp0, Hle. done.
  - apply earliest_min_None in Hm as ->. intros [= <- <-].
    exists a. done.
Qed.

Lemma pop_nonempty q :
  q ≠ [] → ∃ e rest, sort q = e :: rest ∧ pop q = (Some e.2, rest).
Proof.
  intros Hq. unfold pop. destruct q as [|a q]; [done|]. cbn [empty].
  destruct (sort (a :: q)) as [|e rest] eqn:Hs.
  - pose proof (sort_perm (a :: q)) as Hp. rewrite Hs in Hp.
    by apply Permutation_nil_cons in Hp.
  - by exists e, rest.
Qed.

(** The queue of the program and the insertion history sort to the same
    list, whatever calls were made. *)
Lemma run_sort ops q h q' h' :
  sort q = sort h → run ops q h = (q', h') → sort q' = sort h'.
Proof.
  revert q h. induction ops as [|[d p|] ops IH]; intros q h Hqh; cbn.
  - by intros [= <- <-].
  - apply IH. unfold put. by rewrite !sort_snoc, Hqh.
  - apply IH. unfold chrono_pop.
    destruct (earliest_min h) as [[i p]|] eqn:Hm.
    + destruct (earliest_min_sort h i p Hm) as (e & _ & _ & Hs).
      assert (q ≠ []) as Hne.
      { intros ->. cbn in Hqh. by rewrite Hs in Hqh. }
      destruct (pop_nonempty q Hne) as (e' & rest & Hsq & ->). cbn.
      rewrite Hsq, Hs in Hqh. injection Hqh as -> ->.
      apply sort_fixed. apply sort_sorted.
    + apply earliest_min_None in Hm as ->. cbn in Hqh.
      destruct q as [|a q]; [done|].
      pose proof (sort_perm (a :: q)) as Hp. rewrite Hqh in Hp.
      by apply Permutation_nil_cons in Hp.
Qed.

Lemma run_app ops1 ops2 q h :
  run (ops1 ++ ops2) q h = run ops2 (run ops1 q h).1 (run ops1 q h).2.
Proof.
  revert q h. induction ops1 as [|[d p|] ops1 IH]; intros q h; cbn; [done|..];
    apply IH.
Qed.
End PriorityQueueFacts.

(** ** Fuel *)

Lemma a_star_loop_mono (n m : nat) the_end w st r :
  a_star_loop n the_end w st = Some r → (n ≤ m)%nat →
  a_star_loop m the_end w st = Some r.
Proof.
  revert m st. induction n as [|n IH]; intros m st; cbn [a_star_loop]; [done|].
  intros Hr Hm. destruct m as [|m]; [lia|]. cbn [a_star_loop].
  destruct (empty (looking_at st)); [done|].
  destruct (pop (looking_at st)) as [[current|] q]; [|done].
  destruct (decide (current = the_end)); [done|].
  destruct (neighbours w current) as [ns| |]; [|done..].
  destruct (visit_all the_end current _ ns) as [st2| |]; [|done..].
  apply IH; [done|lia].
Qed.

Lemma follow_mono (n m : nat) parents the_start the_point the_path r :
  follow n parents the_start the_point the_path = Some r → (n ≤ m)%nat →
  follow m parents the_start the_point the_path = Some r.
Proof.
  revert m the_point the_path.
  induction n as [|n IH]; intros m pt path; cbn [follow]; [done|].
  intros Hr Hm. destruct m as [|m]; [lia|]. cbn [follow].
  destruct (decide (pt = the_start)); [done|].
  destruct (parents !! pt) as [[p|]|]; [|done..].
  apply IH; [done|lia].
Qed.

Lemma a_star_mono (n m : nat) s e w r :
  a_star n s e w = Some r → (n ≤ m)%nat → a_star m s e w = Some r.
Proof.
  unfold a_star. intros Hr Hm.
  destruct (a_star_loop n e w (a_star_init s)) as [rl|] eqn:Hl; [|done].
  rewrite (a_star_loop_mono n m _ _ _ _ Hl Hm).
  destruct rl as [[ex st]| |]; [|done..].
  destruct (follow n (parent st) s e [e]) as [rf|] eqn:Hf; [|done].
  by rewrite (follow_mono n m _ _ _ _ _ Hf Hm).
Qed.

Lemma a_star_fuel_irrelevant (n1 n2 : nat) s e w r1 r2 :
  a_star n1 s e w = Some r1 → a_star n2 s e w = Some r2 → r1 = r2.
Proof.
  intros H1 H2.
  apply (a_star_mono _ (n1 `max` n2)) in H1; [|lia].
  apply (a_star_mono _ (n1 `max` n2)) in H2; [|lia].
  congruence.
Qed.

(** ** Geometry *)

Lemma elem_of_potential (p q : Vector2) :
  q ∈ potential p ↔
    q = mkVector2 (x p - 1) (y p) ∨ q = mkVector2 (x p + 1) (y p)
    ∨ q = mkVector2 (x p) (y p + 1) ∨ q = mkVector2 (x p) (y p - 1).
Proof.
  unfold potential. rewrite !elem_of_cons, elem_of_nil. tauto.
Qed.

Lemma potential_adjacent (p q : Vector2) :
  q ∈ potential p ↔ cartesian_distance p q = 1.
Proof.
  rewrite elem_of_potential. unfold cartesian_distance.
  destruct p as [px py], q as [qx qy]; cbn. split.
  - intros [H|[H|[H|H]]]; injection H as -> ->; lia.
  - intros H.
    assert ((qx = px - 1 ∧ qy = py) ∨ (qx = px + 1 ∧ qy = py)
            ∨ (qx = px ∧ qy = py + 1) ∨ (qx = px ∧ qy = py - 1)) as Hc by lia.
    destruct Hc as [[-> ->]|[[-> ->]|[[-> ->]|[-> ->]]]]; auto.
Qed.

Lemma potential_ne (p q : Vector2) : q ∈ potential p → q ≠ p.
Proof.
  rewrite potential_adjacent. intros H ->. unfold cartesian_distance in H. lia.
Qed.

(** The heuristic is consistent: one move changes it by at most one. *)
Lemma heuristic_step (e p q : Vector2) :
  q ∈ potential p → cartesian_distance e p <= cartesian_distance e q + 1.
Proof.
  rewrite potential_adjacent. unfold cartesian_distance. lia.
Qed.

Lemma neighbours_edge (w : World) (p : Vector2) :
  grid w → ∃ ns, neighbours w p = Ok ns ∧ NoDup ns ∧ ∀ q, q ∈ ns ↔ edge w p q.
Proof.
  intros Hg. exists (filter (passable w) (potential p)).
  split; [by apply neighbours_filter|]. split.
  - apply NoDup_filter. unfold potential.
    repeat (apply NoDup_cons; split; [rewrite ?elem_of_cons, elem_of_nil;
      intros H; repeat destruct H as [H|H]; try done; injection H; lia|]).
    apply NoDup_nil_2.
  - intros q. rewrite list_elem_of_filter. unfold edge. tauto.
Qed.

Lemma elem_of_all_cells (w : World) (p : Vector2) :
  point_inside w p = true → p ∈ all_cells w.
Proof.
  unfold point_inside, all_cells. intros H.
  apply list_elem_of_bind. exists (y p). split; [|apply elem_of_seqZ; lia].
  apply list_elem_of_bind. exists (x p). split; [|apply elem_of_seqZ; lia].
  destruct p. cbn. apply list_elem_of_singleton. done.
Qed.

Lemma edge_cells (w : World) (s p q : Vector2) : edge w p q → q ∈ cells w s.
Proof.
  intros [_ [Hin _]]. unfold cells. apply elem_of_union_r.
  apply elem_of_list_to_set. by apply elem_of_all_cells.
Qed.

(** ** Popping the least entry *)

Lemma pop_min {A : Type} (q : list (Z * A)) :
  q ≠ [] →
  ∃ f n rest, pop q = (Some n, rest) ∧ (f, n) :: rest ≡ₚ q
              ∧ ∀ f' c, (f', c) ∈ q → f <= f'.
Proof.
  intros Hq. destruct (pop_nonempty q Hq) as ([f n] & rest & Hs & Hpop).
  exists f, n, rest. split; [done|].
  assert ((f, n) :: rest ≡ₚ q) as Hperm by (rewrite <- Hs; apply sort_perm).
  split; [done|]. intros f' c Hin. rewrite <- Hperm in Hin.
  pose proof (sort_sorted q) as Hsorted. rewrite Hs in Hsorted.
  apply Sorted_extends in Hsorted; [|intros a b d; unfold by_priority; lia].
  apply elem_of_cons in Hin as [[= -> ->]|Hin]; [lia|].
  rewrite List.Forall_forall in Hsorted.
  apply list_elem_of_In, Hsorted in Hin. exact Hin.
Qed.

(** ** Sums over the cells *)

Lemma sumZ_cons {A : Type} (f : A → Z) (a : A) (l : list A) :
  sumZ f (a :: l) = f a + sumZ f l.
Proof. reflexivity. Qed.

Lemma sumZ_ext {A : Type} (f g : A → Z) (l : list A) :
  (∀ a, a ∈ l → f a = g a) → sumZ f l = sumZ g l.
Proof.
  induction l as [|a l IH]; [done|]. intros H. rewrite !sumZ_cons.
  rewrite H by apply list_elem_of_here. rewrite IH; [done|].
  intros b Hb. apply H. by apply list_elem_of_further.
Qed.

Lemma sumZ_update {A : Type} (f g : A → Z) (l : list A) (c : A) :
  NoDup l → c ∈ l → (∀ a, a ≠ c → g a = f a) →
  sumZ g l = sumZ f l + (g c - f c).
Proof.
  intros Hnd Hc Hfg. induction Hnd as [|a l Ha Hnd IH]; [by apply elem_of_nil in Hc|].
  rewrite !sumZ_cons. apply elem_of_cons in Hc as [->|Hc].
  - rewrite (sumZ_ext g f l); [lia|]. intros b Hb. apply Hfg. by intros ->.
  - rewrite IH by done. rewrite (Hfg a); [lia|]. by intros ->.
Qed.

Lemma sumZ_nonneg {A : Type} (f : A → Z) (l : list A) :
  (∀ a, 0 <= f a) → 0 <= sumZ f l.
Proof.
  intros H. induction l as [|a l IH]; [done|]. rewrite sumZ_cons.
  specialize (H a). lia.
Qed.

(** ** One visit *)

Lemma visit_cases (e n : Vector2) (st : state) (q : Vector2) (kn : Z) :
  cost st !! n = Some kn →
  (visit e n st q = Ok st ∧ ∃ old, cost st !! q = Some old ∧ old <= kn + 1)
  ∨ (visit e n st q = Ok (improved e n st q (kn + 1))
     ∧ (cost st !! q = None ∨ ∃ old, cost st !! q = Some old ∧ kn + 1 < old)).
Proof.
  intros Hn. unfold visit, improved. rewrite Hn.
  destruct (cost st !! q) as [old|] eqn:Hq.
  - destruct (kn + 1 <? old) eqn:Hlt.
    + right. split; [done|]. right. exists old. split; [done|lia].
    + left. split; [done|]. exists old. split; [done|lia].
  - right. split; [done|]. by left.
Qed.

Lemma cost_le_refl (c : gmap Vector2 Z) : cost_le c c.
Proof. intros p k H. exists k. split; [done|lia]. Qed.

Lemma cost_le_trans (c1 c2 c3 : gmap Vector2 Z) :
  cost_le c1 c2 → cost_le c2 c3 → cost_le c1 c3.
Proof.
  intros H12 H23 p k H. destruct (H12 p k H) as (k2 & H2 & ?).
  destruct (H23 p k2 H2) as (k3 & H3 & ?). exists k3. split; [done|lia].
Qed.

Lemma cost_le_insert (c : gmap Vector2 Z) (q : Vector2) (k : Z) :
  (c !! q = None ∨ ∃ old, c !! q = Some old ∧ k < old) →
  cost_le c (<[ q := k ]> c).
Proof.
  intros Hq p kp Hp. destruct (decide (p = q)) as [->|Hne].
  - rewrite lookup_insert_eq. exists k. split; [done|].
    destruct Hq as [Hq|(old & Hq & ?)]; [congruence|].
    assert (old = kp) by congruence. lia.
  - rewrite lookup_insert_ne by done. exists kp. split; [done|lia].
Qed.

Lemma closed_cost_le (w : World) (st st' : state) (c : Vector2) :
  closed w st c → cost st' !! c = cost st !! c → cost_le (cost st) (cost st') →
  closed w st' c.
Proof.
  intros (k & Hk & Hq) Hc Hle. exists k. split; [congruence|].
  intros q Hedge. destruct (Hq q Hedge) as (kq & Hkq & ?).
  destruct (Hle q kq Hkq) as (kq' & Hkq' & ?). exists kq'. split; [done|lia].
Qed.

Lemma improved_inv (w : World) (s e n : Vector2) (st : state) (q : Vector2) (kn : Z) :
  inv w s e (Some n) st → cost st !! n = Some kn → edge w n q →
  (cost st !! q = None ∨ ∃ old, cost st !! q = Some old ∧ kn + 1 < old) →
  inv w s e (Some n) (improved e n st q (kn + 1)).
Proof.
  intros Hinv Hn Hedge Hq.
  assert (q ≠ n) as Hqn by (apply potential_ne, Hedge).
  assert (0 <= kn) as Hkn by (by eapply inv_nonneg).
  assert (q ≠ s) as Hqs.
  { intros ->. pose proof (inv_start_cost _ _ _ _ _ Hinv) as Hs.
    destruct Hq as [Hq|(old & Hq & ?)]; [congruence|].
    assert (old = 0) by congruence. lia. }
  assert (cost_le (cost st) (cost (improved e n st q (kn + 1)))) as Hle.
  { by apply cost_le_insert. }
  split; unfold improved in *; cbn [cost parent looking_at] in *.
  - rewrite lookup_insert_ne by done. by eapply inv_start_cost.
  - rewrite lookup_insert_ne by done. by eapply inv_start_parent.
  - intros c k. destruct (decide (c = q)) as [->|Hne].
    + rewrite lookup_insert_eq. intros [= <-]. lia.
    + rewrite lookup_insert_ne by done. by eapply inv_nonneg.
  - intros c k. destruct (decide (c = q)) as [->|Hne].
    + rewrite !lookup_insert_eq. intros [= <-] _. exists n, kn.
      rewrite lookup_insert_ne by done. split; [done|]. split; [done|].
      split; [lia|done].
    + rewrite !(lookup_insert_ne _ q c) by done. intros Hc Hcs.
      destruct (inv_parent _ _ _ _ _ Hinv c k Hc Hcs) as (p & kp & Hp & Hkp & ? & ?).
      destruct (Hle p kp Hkp) as (kp' & Hkp' & ?).
      exists p, kp'. split; [done|]. split; [done|]. split; [lia|done].
  - intros c. destruct (decide (c = q)) as [->|Hne].
    + by rewrite lookup_insert_eq.
    + rewrite !lookup_insert_ne by done. by eapply inv_parent_dom.
  - intros f c. unfold put. rewrite elem_of_app, list_elem_of_singleton.
    intros [Hin|[= -> ->]].
    + destruct (inv_queue _ _ _ _ _ Hinv f c Hin) as (k & Hk & Hf).
      destruct (Hle c k Hk) as (k' & Hk' & ?). exists k'. split; [done|].
      destruct Hf as [Hf| ->]; [left; lia|by right].
    + exists (kn + 1). rewrite lookup_insert_eq. split; [done|]. left. lia.
  - intros c k. unfold put. destruct (decide (c = q)) as [->|Hne].
    + rewrite lookup_insert_eq. intros [= <-] _. left. eexists. split; [|reflexivity].
      rewrite elem_of_app, list_elem_of_singleton. by right.
    + rewrite lookup_insert_ne by done. intros Hc Hcn.
      destruct (inv_pending _ _ _ _ _ Hinv c k Hc Hcn) as [(f & Hin & Hf)|Hcl].
      * left. exists f. split; [|done]. rewrite elem_of_app. by left.
      * right. eapply closed_cost_le; [done| |done]. cbn.
        by rewrite lookup_insert_ne.
  - intros k Hes. unfold put. destruct (decide (e = q)) as [->|Hne].
    + intros _. eexists. rewrite elem_of_app, list_elem_of_singleton. by right.
    + rewrite lookup_insert_ne by done. intros He.
      destruct (inv_goal _ _ _ _ _ Hinv k Hes He) as [f Hf].
      exists f. rewrite elem_of_app. by left.
Qed.

Lemma improved_measure (w : World) (s e n : Vector2) (st : state) (q : Vector2) (kn : Z) :
  q ∈ cells w s → kn + 1 <= Z.of_nat (size (cells w s)) →
  (cost st !! q = None ∨ ∃ old, cost st !! q = Some old ∧ kn + 1 < old) →
  measure w s (improved e n st q (kn + 1)) + 1 <= measure w s st.
Proof.
  intros Hq HB Hbetter. unfold measure.
  set (B := Z.of_nat (size (cells w s))) in *.
  rewrite (sumZ_update (slack B st) (slack B (improved e n st q (kn + 1)))
             (elements (cells w s)) q).
  - assert (slack B (improved e n st q (kn + 1)) q = kn + 1) as ->.
    { unfold slack, improved; cbn. by rewrite lookup_insert_eq. }
    assert (kn + 1 < slack B st q) as Hs.
    { unfold slack. destruct Hbetter as [->|(old & -> & ?)]; lia. }
    unfold improved at 1; cbn [looking_at]. unfold put, len.
    rewrite length_app. cbn. lia.
  - apply NoDup_elements.
  - by apply elem_of_elements.
  - intros a Ha. unfold slack, improved; cbn. by rewrite lookup_insert_ne.
Qed.

Lemma visit_inv (w : World) (s e n : Vector2) (st : state) (q : Vector2) (kn : Z) :
  inv w s e (Some n) st → cost st !! n = Some kn → edge w n q →
  kn + 1 <= Z.of_nat (size (cells w s)) →
  ∃ st', visit e n st q = Ok st' ∧ inv w s e (Some n) st'
         ∧ cost st' !! n = Some kn ∧ cost_le (cost st) (cost st')
         ∧ (∃ kq, cost st' !! q = Some kq ∧ kq <= kn + 1)
         ∧ measure w s st' <= measure w s st.
Proof.
  intros Hinv Hn Hedge HB.
  destruct (visit_cases e n st q kn Hn) as [[-> Hold]|[-> Hbetter]].
  - exists st. split; [done|]. split; [done|]. split; [done|].
    split; [apply cost_le_refl|]. split; [done|lia].
  - eexists. split; [done|].
    assert (q ≠ n) as Hqn by (apply potential_ne, Hedge).
    split; [by apply improved_inv|].
    split; [unfold improved; cbn [cost]; by rewrite lookup_insert_ne|].
    split; [by apply cost_le_insert|].
    split.
    { exists (kn + 1). unfold improved; cbn [cost].
      rewrite lookup_insert_eq. split; [done|lia]. }
    pose proof (improved_measure w s e n st q kn
                  (edge_cells w s n q Hedge) HB Hbetter) as Hm.
    lia.
Qed.

Lemma visit_all_inv (w : World) (s e n : Vector2) (ns : list Vector2) (st : state) (kn : Z) :
  inv w s e (Some n) st → cost st !! n = Some kn → (∀ q, q ∈ ns → edge w n q) →
  kn + 1 <= Z.of_nat (size (cells w s)) →
  ∃ st', visit_all e n st ns = Ok st' ∧ inv w s e (Some n) st'
         ∧ cost st' !! n = Some kn ∧ cost_le (cost st) (cost st')
         ∧ (∀ q, q ∈ ns → ∃ kq, cost st' !! q = Some kq ∧ kq <= kn + 1)
         ∧ measure w s st' <= measure w s st.
Proof.
  revert st. induction ns as [|q ns IH]; intros st Hinv Hn Hedges HB.
  { exists st. cbn. split; [done|]. split; [done|]. split; [done|].
    split; [apply cost_le_refl|]. split; [|lia]. intros q Hq. by apply elem_of_nil in Hq. }
  destruct (visit_inv w s e n st q kn Hinv Hn) as (st1 & Hv & Hinv1 & Hn1 & Hle1 & Hq1 & Hm1);
    [apply Hedges, list_elem_of_here|done|].
  destruct (IH st1 Hinv1 Hn1) as (st2 & Hv2 & Hinv2 & Hn2 & Hle2 & Hq2 & Hm2);
    [intros q' Hq'; by apply Hedges, list_elem_of_further|done|].
  exists st2. cbn [visit_all]. rewrite Hv. cbn [bind].
  split; [done|]. split; [done|]. split; [done|].
  split; [by eapply cost_le_trans|]. split; [|lia].
  intros q' Hq'. apply elem_of_cons in Hq' as [->|Hq']; [|by apply Hq2].
  destruct Hq1 as (kq & Hkq & ?). destruct (Hle2 q kq Hkq) as (kq' & Hkq' & ?).
  exists kq'. split; [done|lia].
Qed.

(** ** Following the parents *)

Lemma chain_exists (w : World) (s e : Vector2) (cur : option Vector2) (st : state) :
  inv w s e cur st →
  ∀ k c, cost st !! c = Some k →
    ∃ l, chain w s st c l ∧ len l <= k ∧ NoDup (c :: l)
         ∧ Forall (λ a, ∃ ka, cost st !! a = Some ka ∧ ka < k) l.
Proof.
  intros Hinv k. induction (Z.lt_wf 0 k) as [k _ IH]. intros c Hc.
  assert (0 <= k) as Hk by (by eapply inv_nonneg).
  destruct (decide (c = s)) as [->|Hcs].
  { exists []. split; [constructor|]. split; [done|].
    split; [apply NoDup_singleton|constructor]. }
  destruct (inv_parent _ _ _ _ _ Hinv c k Hc Hcs) as (p & kp & Hp & Hkp & Hlt & Hedge).
  assert (0 <= kp) as Hkp0 by (by eapply inv_nonneg).
  destruct (IH kp ltac:(lia) p Hkp) as (l & Hchain & Hlen & Hnd & Hall).
  exists (p :: l). split; [by constructor|].
  assert (Forall (λ a, ∃ ka, cost st !! a = Some ka ∧ ka < k) (p :: l)) as Hall'.
  { constructor; [exists kp; split; [done|lia]|].
    eapply Forall_impl; [exact Hall|]. intros a (ka & Hka & ?).
    exists ka. split; [done|lia]. }
  split; [unfold len in *; cbn; lia|]. split; [|done].
  apply NoDup_cons. split; [|done]. intros Hin.
  rewrite Forall_forall in Hall'. destruct (Hall' c Hin) as (ka & Hka & ?).
  assert (ka = k) by congruence. lia.
Qed.

Lemma chain_cells (w : World) (s : Vector2) (st : state) (c : Vector2) (l : list Vector2) :
  chain w s st c l → ∀ a, a ∈ c :: l → a ∈ cells w s.
Proof.
  induction 1 as [|c p l Hcs Hp Hedge Hchain IH]; intros a Ha.
  - apply list_elem_of_singleton in Ha as ->. unfold cells.
    apply elem_of_union_l. by apply elem_of_singleton.
  - apply elem_of_cons in Ha as [->|Ha]; [by eapply edge_cells|by apply IH].
Qed.

Lemma chain_walk (w : World) (s : Vector2) (st : state) (c : Vector2) (l : list Vector2) :
  chain w s st c l → walk w s c (len l).
Proof.
  induction 1 as [|c p l Hcs Hp Hedge Hchain IH]; [constructor|].
  replace (len (p :: l)) with (len l + 1) by (unfold len; cbn; lia).
  by econstructor.
Qed.

Lemma chain_bound (w : World) (s : Vector2) (st : state) (c : Vector2) (l : list Vector2) :
  chain w s st c l → NoDup (c :: l) → len l + 1 <= Z.of_nat (size (cells w s)).
Proof.
  intros Hchain Hnd.
  assert (list_to_set (c :: l) ⊆ cells w s) as Hsub.
  { intros a Ha. apply elem_of_list_to_set in Ha. by eapply chain_cells. }
  apply subseteq_size in Hsub. rewrite size_list_to_set in Hsub by done.
  unfold len. cbn in Hsub. lia.
Qed.

Lemma follow_chain (w : World) (s : Vector2) (st : state) (c : Vector2) (l : list Vector2) :
  chain w s st c l →
  ∀ (fuel : nat) acc, (length l < fuel)%nat →
    follow fuel (parent st) s c acc = Some (Ok (acc ++ l)).
Proof.
  induction 1 as [|c p l Hcs Hp Hedge Hchain IH]; intros fuel acc Hfuel.
  - destruct fuel as [|fuel]; [lia|]. cbn [follow].
    rewrite decide_True by done. by rewrite app_nil_r.
  - destruct fuel as [|fuel]; [cbn in Hfuel; lia|]. cbn [follow].
    rewrite decide_False by done. rewrite Hp.
    rewrite IH by (cbn in Hfuel; lia). by rewrite <- app_assoc.
Qed.

(** ** The cell popped has its least cost *)

Lemma walk_progress (w : World) (s e : Vector2) (st : state) (c : Vector2) (d : Z) :
  inv w s e None st → walk w s c d →
  (∃ k, cost st !! c = Some k ∧ k <= d ∧ closed w st c)
  ∨ (∃ f c', (f, c') ∈ looking_at st ∧ f <= d + cartesian_distance e c).
Proof.
  intros Hinv. induction 1 as [|c q d Hwalk IH Hedge].
  - pose proof (inv_start_cost _ _ _ _ _ Hinv) as Hs.
    destruct (inv_pending _ _ _ _ _ Hinv s 0 Hs) as [(f & Hin & Hf)|Hcl]; [done|..].
    + right. eexists _, _. split; [exact Hin|lia].
    + left. exists 0. split; [done|]. split; [lia|done].
  - destruct IH as [(k & Hk & Hkd & (k' & Hk' & Hcl))|(f & c' & Hin & Hf)].
    + assert (k' = k) as -> by congruence.
      destruct (Hcl q Hedge) as (kq & Hkq & Hle).
      destruct (inv_pending _ _ _ _ _ Hinv q kq Hkq) as [(f & Hin & Hf)|Hclq]; [done|..].
      * right. eexists _, _. split; [exact Hin|lia].
      * left. exists kq. split; [done|]. split; [lia|done].
    + right. exists f, c'. split; [done|].
      pose proof (heuristic_step e c q (proj1 Hedge)). lia.
Qed.

Lemma walk_nonneg (w : World) (s c : Vector2) (d : Z) : walk w s c d → 0 <= d.
Proof. induction 1; lia. Qed.

Lemma pop_optimal (w : World) (s e : Vector2) (st : state) (f : Z) (n : Vector2) :
  inv w s e None st → (f, n) ∈ looking_at st →
  (∀ f' c, (f', c) ∈ looking_at st → f <= f') →
  ∃ kn, cost st !! n = Some kn ∧ ∀ d, walk w s n d → kn <= d.
Proof.
  intros Hinv Hin Hmin.
  destruct (inv_queue _ _ _ _ _ Hinv f n Hin) as (kn & Hkn & Hf).
  exists kn. split; [done|]. intros d Hwalk.
  destruct Hf as [Hf| ->].
  - destruct (walk_progress w s e st n d Hinv Hwalk)
      as [(k & Hk & Hkd & _)|(f' & c' & Hin' & Hf')].
    + assert (k = kn) by congruence. lia.
    + specialize (Hmin f' c' Hin'). lia.
  - pose proof (inv_start_cost _ _ _ _ _ Hinv) as Hs.
    assert (kn = 0) as -> by congruence. by eapply walk_nonneg.
Qed.

Lemma optimal_bound (w : World) (s e : Vector2) (cur : option Vector2) (st : state)
    (n : Vector2) (kn : Z) :
  inv w s e cur st → cost st !! n = Some kn → (∀ d, walk w s n d → kn <= d) →
  kn + 1 <= Z.of_nat (size (cells w s)).
Proof.
  intros Hinv Hkn Hopt.
  destruct (chain_exists w s e cur st Hinv kn n Hkn) as (l & Hchain & Hlen & Hnd & _).
  pose proof (Hopt _ (chain_walk _ _ _ _ _ Hchain)).
  pose proof (chain_bound _ _ _ _ _ Hchain Hnd). lia.
Qed.

(** ** One pass of the main loop *)

Lemma measure_nonneg (w : World) (s e : Vector2) (cur : option Vector2) (st : state) :
  inv w s e cur st → 0 <= measure w s st.
Proof.
  intros Hinv. unfold measure.
  pose proof (sumZ_nonneg (slack (Z.of_nat (size (cells w s))) st)
                (elements (cells w s))) as Hs.
  unfold len. assert (0 <= Z.of_nat (length (looking_at st))) by lia.
  enough (0 <= sumZ (slack (Z.of_nat (size (cells w s))) st) (elements (cells w s))) by lia.
  apply Hs. intros a. unfold slack.
  destruct (cost st !! a) as [k|] eqn:Hk; [by eapply inv_nonneg|lia].
Qed.

Lemma popped_inv (w : World) (s e : Vector2) (st : state) (f : Z) (n : Vector2)
    (rest : list (Z * Vector2)) :
  inv w s e None st → (f, n) :: rest ≡ₚ looking_at st → n ≠ e →
  inv w s e (Some n) {| looking_at := rest; parent := parent st; cost := cost st |}.
Proof.
  intros Hinv Hperm Hne.
  assert (∀ f' c, c ≠ n → (f', c) ∈ looking_at st → (f', c) ∈ rest) as Hrest.
  { intros f' c Hc Hin. rewrite <- Hperm in Hin.
    apply elem_of_cons in Hin as [[= -> ->]|Hin]; done. }
  split; cbn [cost parent looking_at].
  - by eapply inv_start_cost.
  - by eapply inv_start_parent.
  - by eapply inv_nonneg.
  - by eapply inv_parent.
  - by eapply inv_parent_dom.
  - intros f' c Hin. eapply inv_queue; [done|].
    rewrite <- Hperm. by apply list_elem_of_further.
  - intros c k Hc Hcn.
    destruct (inv_pending _ _ _ _ _ Hinv c k Hc) as [(f' & Hin & Hf)|Hcl]; [done|..].
    + left. exists f'. split; [|done]. apply Hrest; [congruence|done].
    + right. exact Hcl.
  - intros k Hes He. destruct (inv_goal _ _ _ _ _ Hinv k Hes He) as [f' Hf'].
    exists f'. apply Hrest; [congruence|done].
Qed.

Lemma popped_measure (w : World) (s : Vector2) (st : state) (f : Z) (n : Vector2)
    (rest : list (Z * Vector2)) :
  (f, n) :: rest ≡ₚ looking_at st →
  measure w s {| looking_at := rest; parent := parent st; cost := cost st |} + 1
  = measure w s st.
Proof.
  intros Hperm. unfold measure, len. cbn [looking_at].
  apply Permutation_length in Hperm. cbn in Hperm.
  rewrite (sumZ_ext _ (slack (Z.of_nat (size (cells w s))) st)); [lia|].
  intros a _. reflexivity.
Qed.

Lemma visited_inv (w : World) (s e n : Vector2) (st : state) (kn : Z) :
  inv w s e (Some n) st → cost st !! n = Some kn →
  (∀ q, edge w n q → ∃ kq, cost st !! q = Some kq ∧ kq <= kn + 1) →
  inv w s e None st.
Proof.
  intros Hinv Hn Hcl. split.
  - by eapply inv_start_cost.
  - by eapply inv_start_parent.
  - by eapply inv_nonneg.
  - by eapply inv_parent.
  - by eapply inv_parent_dom.
  - by eapply inv_queue.
  - intros c k Hc _. destruct (decide (c = n)) as [->|Hcn].
    + right. exists kn. done.
    + eapply inv_pending; [done..|congruence].
  - by eapply inv_goal.
Qed.

(** ** The main loop ends *)

Lemma a_star_loop_ends (w : World) (s e : Vector2) :
  grid w →
  ∀ (fuel : nat) st, inv w s e None st → measure w s st < Z.of_nat fuel →
    ∃ ex st', a_star_loop fuel e w st = Some (Ok (ex, st'))
              ∧ loop_post w s e ex st' ∧ cost_le (cost st) (cost st').
Proof.
  intros Hg. induction fuel as [|fuel IH]; intros st Hinv Hfuel.
  { pose proof (measure_nonneg _ _ _ _ _ Hinv). lia. }
  cbn [a_star_loop]. destruct (looking_at st) as [|a q0] eqn:Hq.
  { cbn [empty]. exists FrontierEmpty, st. split; [done|].
    split; [|apply cost_le_refl]. exists st. done. }
  cbn [empty]. rewrite <- Hq.
  destruct (pop_min (looking_at st)) as (f & n & rest & Hpop & Hperm & Hmin);
    [by rewrite Hq|].
  rewrite Hpop.
  assert ((f, n) ∈ looking_at st) as Hin.
  { rewrite <- Hperm. apply list_elem_of_here. }
  destruct (pop_optimal w s e st f n Hinv Hin Hmin) as (kn & Hkn & Hopt).
  destruct (decide (n = e)) as [->|Hne].
  { eexists GoalReached, _. split; [done|]. split; [|apply cost_le_refl].
    exists st. split; [done|]. split; [done|]. split; [done|].
    split; [done|]. by exists kn. }
  destruct (neighbours_edge w n Hg) as (ns & -> & _ & Hns).
  pose proof (popped_inv w s e st f n rest Hinv Hperm Hne) as Hinv1.
  pose proof (popped_measure w s st f n rest Hperm) as Hm1.
  pose proof (optimal_bound w s e None st n kn Hinv Hkn Hopt) as HB.
  destruct (visit_all_inv w s e n ns _ kn Hinv1 Hkn) as
    (st2 & -> & Hinv2 & Hkn2 & Hle2 & Hcl2 & Hm2); [by intros q Hq'; apply Hns|done|].
  destruct (IH st2) as (ex & st' & Hloop & Hpost & Hle').
  - eapply visited_inv; [done..|]. intros q Hedge. by apply Hcl2, Hns.
  - lia.
  - exists ex, st'. split; [done|]. split; [done|].
    eapply cost_le_trans; [|done]. exact Hle2.
Qed.

Lemma a_star_init_inv (w : World) (s e : Vector2) : inv w s e None (a_star_init s).
Proof.
  split; unfold a_star_init; cbn [cost parent looking_at].
  - apply lookup_singleton_eq.
  - apply lookup_singleton_eq.
  - intros c k Hc. apply lookup_singleton_Some in Hc as [_ <-]. done.
  - intros c k Hc Hcs. apply lookup_singleton_Some in Hc as [-> _]. done.
  - intros c Hc. apply lookup_singleton_None in Hc. by apply lookup_singleton_None.
  - intros f c Hin. apply list_elem_of_singleton in Hin as [= -> ->].
    exists 0. rewrite lookup_singleton_eq. split; [done|by right].
  - intros c k Hc _. apply lookup_singleton_Some in Hc as [<- <-]. left.
    exists 0. split; [apply list_elem_of_singleton; done|].
    unfold cartesian_distance. lia.
  - intros k Hes He. apply lookup_singleton_Some in He as [-> _]. done.
Qed.

(** ** Routes and walks *)

Lemma cartesian_distance_sym (p q : Vector2) :
  cartesian_distance p q = cartesian_distance q p.
Proof. unfold cartesian_distance. lia. Qed.

Lemma stepwise_cons (a b : Vector2) (l : list Vector2) :
  stepwise (a :: b :: l) ↔ cartesian_distance a b = 1 ∧ stepwise (b :: l).
Proof. reflexivity. Qed.

Lemma stepwise_snoc (l : list Vector2) (a b : Vector2) :
  stepwise (l ++ [a]) → cartesian_distance a b = 1 → stepwise ((l ++ [a]) ++ [b]).
Proof.
  intros Hl Hab. induction l as [|c l IH].
  { cbn. done. }
  destruct l as [|c' l].
  - cbn in *. tauto.
  - change (stepwise (c :: c' :: ((l ++ [a]) ++ [b]))).
    change (stepwise (c :: c' :: (l ++ [a]))) in Hl.
    rewrite stepwise_cons in *. destruct Hl as [Hcc Hl]. split; [done|].
    by apply IH.
Qed.

Lemma stepwise_reverse (l : list Vector2) : stepwise l → stepwise (reverse l).
Proof.
  induction l as [|a l IH]; [done|]. intros Hl.
  rewrite reverse_cons. destruct l as [|b l]; [done|].
  rewrite stepwise_cons in Hl. destruct Hl as [Hab Hl].
  specialize (IH Hl). rewrite reverse_cons in *.
  apply stepwise_snoc; [done|]. by rewrite cartesian_distance_sym.
Qed.

Lemma stepwise_lookup (l : list Vector2) (i : nat) (a b : Vector2) :
  stepwise l → l !! i = Some a → l !! S i = Some b → cartesian_distance a b = 1.
Proof.
  revert i. induction l as [|c l IH]; intros i Hl Ha Hb; [done|].
  destruct l as [|c' l]; [done|]. rewrite stepwise_cons in Hl.
  destruct Hl as [Hcc Hl]. destruct i as [|i].
  - cbn in Ha, Hb. congruence.
  - by apply (IH i).
Qed.

Lemma route_walk_from (w : World) (s : Vector2) (l : list Vector2) :
  ∀ a b d, walk w s a d → head l = Some a → last l = Some b →
    Forall (passable w) l → stepwise l → walk w s b (d + edges l).
Proof.
  induction l as [|c l IH]; intros a b d Hwalk Hhd Hlast Hpass Hstep; [done|].
  assert (c = a) as -> by (cbn in Hhd; congruence). destruct l as [|c' l].
  - assert (b = a) as -> by (cbn in Hlast; congruence).
    change (edges [a]) with 0. by rewrite Z.add_0_r.
  - rewrite stepwise_cons in Hstep. destruct Hstep as [Hac Hstep].
    apply Forall_cons in Hpass as [_ Hpass].
    replace (d + edges (a :: c' :: l)) with ((d + 1) + edges (c' :: l))
      by (unfold edges, len; cbn [length]; lia).
    apply (IH c'); [|done|done|done|done].
    econstructor; [done|]. split; [by apply potential_adjacent|].
    by apply Forall_cons in Hpass as [? _].
Qed.

Lemma route_walk (w : World) (s e : Vector2) (l : list Vector2) :
  route w s e l → walk w s e (edges l).
Proof.
  intros (Hhd & Hlast & Hpass & Hstep).
  replace (edges l) with (0 + edges l) by lia.
  eapply route_walk_from; [constructor|done..].
Qed.

Lemma chain_last (w : World) (s : Vector2) (st : state) (c : Vector2) (l : list Vector2) :
  chain w s st c l → last (c :: l) = Some s.
Proof. induction 1; [done|]. by rewrite last_cons_cons. Qed.

Lemma chain_stepwise (w : World) (s : Vector2) (st : state) (c : Vector2) (l : list Vector2) :
  chain w s st c l → stepwise (c :: l).
Proof.
  induction 1 as [|c p l Hcs Hp Hedge Hchain IH]; [done|].
  rewrite stepwise_cons. split; [|done].
  rewrite cartesian_distance_sym. apply potential_adjacent, Hedge.
Qed.

Lemma chain_passable (w : World) (s : Vector2) (st : state) (c : Vector2) (l : list Vector2) :
  chain w s st c l → passable w s → Forall (passable w) (c :: l).
Proof.
  intros Hchain Hs. induction Hchain as [|c p l Hcs Hp Hedge Hchain IH].
  - by constructor.
  - constructor; [apply Hedge|done].
Qed.

Lemma chain_route (w : World) (s : Vector2) (st : state) (c : Vector2) (l : list Vector2) :
  chain w s st c l → passable w s → route w s c (reverse (c :: l)).
Proof.
  intros Hchain Hs. split; [|split; [|split]].
  - rewrite head_reverse. by eapply chain_last.
  - by rewrite last_reverse.
  - apply Forall_reverse. by eapply chain_passable.
  - apply stepwise_reverse. by eapply chain_stepwise.
Qed.

Lemma edges_reverse_cons (c : Vector2) (l : list Vector2) :
  edges (reverse (c :: l)) = len l.
Proof. unfold edges, len. rewrite length_reverse. cbn. lia. Qed.

(** ** What a_star answers *)

Lemma a_star_same (fuel : nat) (c : Vector2) (w : World) :
  a_star (S fuel) c c w = Some (Ok [c]).
Proof.
  unfold a_star, a_star_init. cbn [a_star_loop]. cbn.
  rewrite decide_True by done. cbn. by rewrite decide_True.
Qed.

Lemma a_star_outcome (w : World) (s e : Vector2) :
  grid w →
  ∃ fuel0 : nat, ∀ fuel : nat, (fuel0 ≤ fuel)%nat →
    (∃ st l, a_star fuel s e w = Some (Ok (reverse (e :: l)))
             ∧ chain w s st e l ∧ NoDup (e :: l)
             ∧ ∀ d, walk w s e d → len l <= d)
    ∨ (a_star fuel s e w = Some (SysExit "No path could be found.")
       ∧ ∀ d, ¬ walk w s e d).
Proof.
  intros Hg.
  exists (S (Z.to_nat (measure w s (a_star_init s)) + size (cells w s))).
  intros fuel Hfuel.
  pose proof (a_star_init_inv w s e) as Hinit.
  pose proof (measure_nonneg _ _ _ _ _ Hinit) as Hm.
  destruct (a_star_loop_ends w s e Hg fuel (a_star_init s) Hinit)
    as (ex & st' & Hloop & (st0 & Hinv0 & Hpar & Hcost & Hex) & _); [lia|].
  destruct (decide (e = s)) as [->|Hes].
  { left. exists st0, []. destruct fuel as [|fuel]; [lia|].
    rewrite a_star_same. split; [done|]. split; [constructor|].
    split; [apply NoDup_singleton|]. intros d Hd. by eapply walk_nonneg. }
  unfold a_star. rewrite Hloop, Hpar. destruct ex.
  - destruct Hex as (_ & k & Hk & Hopt).
    destruct (chain_exists w s e None st0 Hinv0 k e Hk) as (l & Hchain & Hlen & Hnd & _).
    left. exists st0, l.
    pose proof (chain_bound _ _ _ _ _ Hchain Hnd) as Hb.
    rewrite (follow_chain w s st0 e l Hchain) by (unfold len in Hb; lia).
    split; [done|]. split; [done|]. split; [done|].
    intros d Hd. specialize (Hopt d Hd). lia.
  - destruct Hex as [Hq0 _]. right.
    assert (cost st0 !! e = None) as Hnone.
    { destruct (cost st0 !! e) as [k|] eqn:Hk; [|done].
      destruct (inv_goal _ _ _ _ _ Hinv0 k Hes Hk) as [f Hf].
      rewrite Hq0 in Hf. by apply elem_of_nil in Hf. }
    split.
    + destruct fuel as [|fuel]; [lia|]. cbn [follow].
      rewrite decide_False by done.
      by rewrite (inv_parent_dom _ _ _ _ _ Hinv0 e Hnone).
    + intros d Hd.
      destruct (walk_progress w s e st0 e d Hinv0 Hd)
        as [(k & Hk & _)|(f & c' & Hin & _)]; [congruence|].
      rewrite Hq0 in Hin. by apply elem_of_nil in Hin.
Qed.

(** ** The path is made of single steps, in any world *)

Lemma neighbours_loop_sub (w : World) (todo acc ns : list Vector2) :
  neighbours_loop w acc todo = Ok ns → ∀ q, q ∈ ns → q ∈ acc ∨ q ∈ todo.
Proof.
  revert acc. induction todo as [|c todo IH]; intros acc; cbn [neighbours_loop].
  { intros [= <-] q Hq. by left. }
  intros Hns q Hq. rewrite elem_of_cons.
  destruct (point_inside w c).
  - destruct (is_empty w c) as [[|]| |]; cbn [bind] in Hns; [| |done..].
    + destruct (IH _ Hns q Hq) as [Hin|Hin]; [|tauto].
      apply elem_of_app in Hin as [Hin|Hin]; [tauto|].
      apply list_elem_of_singleton in Hin. tauto.
    + destruct (IH _ Hns q Hq); tauto.
  - destruct (IH _ Hns q Hq); tauto.
Qed.

Lemma neighbours_potential (w : World) (p : Vector2) (ns : list Vector2) :
  neighbours w p = Ok ns → ∀ q, q ∈ ns → q ∈ potential p.
Proof.
  unfold neighbours. intros Hns q Hq.
  destruct (neighbours_loop_sub w _ _ _ Hns q Hq) as [Hin|Hin]; [|done].
  by apply elem_of_nil in Hin.
Qed.

Lemma visit_adjacent (e n : Vector2) (st st' : state) (q : Vector2) :
  adjacent_parents (parent st) → q ∈ potential n → visit e n st q = Ok st' →
  adjacent_parents (parent st').
Proof.
  intros Hadj Hq. unfold visit.
  destruct (cost st !! n) as [kn|]; [|done].
  intros Hv.
  assert (st' = st ∨ parent st' = <[ q := Some n ]> (parent st)) as [->| ->].
  { destruct (cost st !! q) as [old|]; [destruct (kn + 1 <? old)|];
      injection Hv as <-; auto. }
  - done.
  - intros c p. destruct (decide (c = q)) as [->|Hne].
    + rewrite lookup_insert_eq. by intros [= <-].
    + rewrite lookup_insert_ne by done. apply Hadj.
Qed.

Lemma visit_all_adjacent (e n : Vector2) (ns : list Vector2) (st st' : state) :
  adjacent_parents (parent st) → (∀ q, q ∈ ns → q ∈ potential n) →
  visit_all e n st ns = Ok st' → adjacent_parents (parent st').
Proof.
  revert st. induction ns as [|q ns IH]; intros st Hadj Hns; cbn [visit_all].
  { by intros [= <-]. }
  destruct (visit e n st q) as [st1| |] eqn:Hv; cbn [bind]; [|done..].
  apply IH.
  - eapply visit_adjacent; [done| |done]. apply Hns, list_elem_of_here.
  - intros q' Hq'. by apply Hns, list_elem_of_further.
Qed.

Lemma a_star_loop_adjacent (w : World) (e : Vector2) (fuel : nat) :
  ∀ st ex st', adjacent_parents (parent st) →
    a_star_loop fuel e w st = Some (Ok (ex, st')) → adjacent_parents (parent st').
Proof.
  induction fuel as [|fuel IH]; intros st ex st' Hadj; cbn [a_star_loop]; [done|].
  destruct (empty (looking_at st)); [by intros [= _ <-]|].
  destruct (pop (looking_at st)) as [[current|] q]; [|done].
  destruct (decide (current = e)); [by intros [= _ <-]|].
  destruct (neighbours w current) as [ns| |] eqn:Hns; [|done..].
  destruct (visit_all e current _ ns) as [st2| |] eqn:Hv; [|done..].
  apply IH. eapply visit_all_adjacent; [|by eapply neighbours_potential|done].
  done.
Qed.

Lemma follow_stepwise (parents : gmap Vector2 (option Vector2)) (s : Vector2) (fuel : nat) :
  adjacent_parents parents →
  ∀ c acc path, follow fuel parents s c acc = Some (Ok path) →
    last acc = Some c → stepwise acc → stepwise path ∧ path ≠ [].
Proof.
  intros Hadj. induction fuel as [|fuel IH]; intros c acc path; cbn [follow]; [done|].
  destruct (decide (c = s)) as [->|Hcs].
  { intros [= <-] Hlast Hstep. split; [done|]. by intros ->. }
  destruct (parents !! c) as [[p|]|] eqn:Hp; [|done..].
  intros Hf Hlast Hstep. apply (IH p (acc ++ [p]) path Hf).
  - apply last_snoc.
  - apply last_Some in Hlast as [acc' ->]. apply stepwise_snoc; [done|].
    rewrite cartesian_distance_sym. by apply potential_adjacent, Hadj.
Qed.

Lemma a_star_stepwise (fuel : nat) (s e : Vector2) (w : World) (path : list Vector2) :
  a_star fuel s e w = Some (Ok path) → stepwise path ∧ path ≠ [].
Proof.
  unfold a_star.
  destruct (a_star_loop fuel e w (a_star_init s)) as [[[ex st]| |]|] eqn:Hloop; [|done..].
  destruct (follow fuel (parent st) s e [e]) as [[path'| |]|] eqn:Hf; [|done..].
  intros [= <-].
  destruct (follow_stepwise (parent st) s fuel) with (c := e) (acc := [e]) (path := path')
    as [Hstep Hne]; [|done..|].
  - eapply a_star_loop_adjacent; [|done]. unfold a_star_init; cbn [parent].
    intros c p Hc. by apply lookup_singleton_Some in Hc as [_ [=]].
  - split; [by apply stepwise_reverse|].
    intros Hnil. apply Hne. apply (f_equal reverse) in Hnil.
    by rewrite reverse_involutive in Hnil.
Qed.

(** ** Encoding a path and reading it back *)

Lemma append_String (a : ascii) (s1 s2 : string) :
  String a s1 +:+ s2 = String a (s1 +:+ s2).
Proof. reflexivity. Qed.

Lemma append_Empty (s : string) : EmptyString +:+ s = s.
Proof. reflexivity. Qed.

Lemma replay_encode_loop (path : list Vector2) :
  ∀ prev displayed tail, stepwise (prev :: path) →
    replay prev (encode_loop (Some prev) displayed path +:+ tail)
    = path ++ replay (default prev (last path)) tail.
Proof.
  induction path as [|point path IH]; intros prev displayed tail Hstep; [done|].
  assert (stepwise (point :: path)) as Hstep' by exact (proj2 Hstep).
  assert (cartesian_distance prev point = 1) as Hd.
  { by apply (stepwise_lookup _ 0 prev point Hstep). }
  assert (default prev (last (point :: path)) = default point (last path)) as ->.
  { rewrite last_cons. by destruct (last path). }
  rewrite <- app_comm_cons, <- (IH point true tail Hstep').
  unfold cartesian_distance in Hd. destruct prev as [px py], point as [qx qy].
  cbn [x y] in Hd. cbn [encode_loop x y].
  destruct (px <? qx) eqn:H1; [|destruct (qx <? px) eqn:H2; [|destruct (py <? qy) eqn:H3]];
    destruct displayed; repeat rewrite ?append_String, ?append_Empty;
    simpl;
    match goal with
    | |- ?a :: _ = ?b :: _ => replace a with b by (f_equal; lia)
    end; reflexivity.
Qed.

(** ** The history of the cost map *)

Lemma linked_app {A : Type} (R : relation A) (l1 l2 : list A) (a : A) :
  linked R a l1 → linked R (default a (last l1)) l2 → linked R a (l1 ++ l2).
Proof.
  revert a. induction l1 as [|b l1 IH]; intros a; [done|].
  intros [Hab Hl1] Hl2. split; [done|]. apply IH; [done|].
  rewrite last_cons in Hl2. by destruct (last l1).
Qed.

Lemma linked_lookup {A : Type} (R T : relation A) (l : list A) :
  (∀ a b, R a b → T a b) → (∀ a, T a a) → (∀ a b c, T a b → T b c → T a c) →
  ∀ a i j u v, linked R a l → (i ≤ j)%nat →
    (a :: l) !! i = Some u → (a :: l) !! j = Some v →
    T u v ∧ (j = S i → R u v).
Proof.
  intros HRT Hrefl Htrans. induction l as [|b l IH]; intros a i j u v Hl Hij Hi Hj.
  { destruct i as [|i], j as [|j]; try done. cbn in Hi, Hj.
    assert (u = v) as -> by congruence. split; [done|lia]. }
  destruct Hl as [Hab Hl]. destruct i as [|i].
  - assert (u = a) as -> by (cbn in Hi; congruence).
    destruct j as [|j].
    + assert (v = a) as -> by (cbn in Hj; congruence). split; [done|lia].
    + destruct (IH b 0%nat j b v Hl ltac:(lia) eq_refl Hj) as [Hbv _].
      split; [by eapply Htrans; [apply HRT|]|].
      intros [= ->]. cbn in Hj. by assert (v = b) as -> by congruence.
  - destruct j as [|j]; [lia|].
    destruct (IH b i j u v Hl ltac:(lia) Hi Hj) as [Huv Hstep].
    split; [done|]. intros [= ->]. by apply Hstep.
Qed.

Lemma linked_head {A B : Type} (f : A → B) (R : relation B) (a a' : A) (l : list A) :
  f a = f a' → linked (λ u v, R (f u) (f v)) a l → linked (λ u v, R (f u) (f v)) a' l.
Proof. intros Heq. destruct l as [|b l]; [done|]. cbn. by rewrite Heq. Qed.

Lemma visit_cost_write (e n : Vector2) (st st' : state) (q : Vector2) :
  visit e n st q = Ok st' → cost_write (cost st) (cost st').
Proof.
  unfold visit. destruct (cost st !! n) as [kn|]; [|done].
  destruct (cost st !! q) as [old|] eqn:Hq.
  - destruct (kn + 1 <? old) eqn:Hlt; intros [= <-]; [|by left].
    right. exists q, (kn + 1). split; [done|]. right. exists old. split; [done|lia].
  - intros [= <-]. right. exists q, (kn + 1). split; [done|]. by left.
Qed.

Lemma cost_write_le (c1 c2 : gmap Vector2 Z) : cost_write c1 c2 → cost_le c1 c2.
Proof.
  intros [->|(p & k & -> & Hp)]; [apply cost_le_refl|by apply cost_le_insert].
Qed.

Lemma visit_all_trace_linked (e n : Vector2) (ns : list Vector2) (st : state) :
  linked (λ u v, cost_write (cost u) (cost v)) st (visit_all_trace e n st ns).
Proof.
  revert st. induction ns as [|q ns IH]; intros st; cbn [visit_all_trace]; [done|].
  destruct (visit e n st q) as [st1| |] eqn:Hv; [|done..].
  split; [by eapply visit_cost_write|apply IH].
Qed.

Lemma visit_all_trace_last (e n : Vector2) (ns : list Vector2) (st st2 : state) :
  visit_all e n st ns = Ok st2 → default st (last (visit_all_trace e n st ns)) = st2.
Proof.
  revert st. induction ns as [|q ns IH]; intros st; cbn [visit_all visit_all_trace].
  { by intros [= <-]. }
  destruct (visit e n st q) as [st1| |] eqn:Hv; cbn [bind]; [|done..].
  intros Hrest. rewrite last_cons. specialize (IH st1 Hrest).
  by destruct (last (visit_all_trace e n st1 ns)).
Qed.

Lemma a_star_trace_linked (w : World) (e : Vector2) (fuel : nat) (st : state) :
  linked (λ u v, cost_write (cost u) (cost v)) st (a_star_trace fuel e w st).
Proof.
  revert st. induction fuel as [|fuel IH]; intros st; cbn [a_star_trace]; [done|].
  destruct (empty (looking_at st)); [done|].
  destruct (pop (looking_at st)) as [[current|] q]; [|done].
  destruct (decide (current = e)); [done|].
  destruct (neighbours w current) as [ns| |]; [|done..].
  set (st1 := {| looking_at := q; parent := parent st; cost := cost st |}).
  apply (linked_head cost cost_write st1 st); [done|].
  apply linked_app; [apply visit_all_trace_linked|].
  destruct (visit_all e current st1 ns) as [st2| |] eqn:Hv; [|done..].
  rewrite (visit_all_trace_last _ _ _ _ _ Hv). apply IH.
Qed.

Lemma a_star_trace_last (w : World) (e : Vector2) (fuel : nat) :
  ∀ st ex st', a_star_loop fuel e w st = Some (Ok (ex, st')) →
    cost (default st (last (a_star_trace fuel e w st))) = cost st'.
Proof.
  induction fuel as [|fuel IH]; intros st ex st'; cbn [a_star_loop a_star_trace]; [done|].
  destruct (empty (looking_at st)); [by intros [= _ <-]|].
  destruct (pop (looking_at st)) as [[current|] q]; [|done].
  destruct (decide (current = e)); [by intros [= _ <-]|].
  destruct (neighbours w current) as [ns| |]; [|done..].
  set (st1 := {| looking_at := q; parent := parent st; cost := cost st |}).
  destruct (visit_all e current st1 ns) as [st2| |] eqn:Hv; [|done..].
  intros Hloop. specialize (IH st2 ex st' Hloop).
  pose proof (visit_all_trace_last _ _ _ _ _ Hv) as Hlast.
  rewrite last_app. destruct (last (a_star_trace fuel e w st2)) as [u|]; [done|].
  cbn in IH. destruct (last (visit_all_trace e current st1 ns)) as [t|];
    cbn in *; [congruence|].
  by rewrite <- IH, <- Hlast.
Qed.

(** ** The fixtures of the specification *)

Example World_init_test_world :
  World_init split_ascii (("0 0 1" +:+ String (ascii_of_nat 10) EmptyString)
              :: ("1 0 1" +:+ String (ascii_of_nat 10) EmptyString)
              :: ["0 0 0"%string])
  = Ok test_world.
Proof. reflexivity. Qed.

Example a_star_test_world :
  a_star 20 (mkVector2 0 0) (mkVector2 2 2) test_world
  = Some (Ok [mkVector2 0 0; mkVector2 1 0; mkVector2 1 1; mkVector2 1 2; mkVector2 2 2]).
Proof. vm_compute. reflexivity. Qed.

Example encode_test_world :
  encode [mkVector2 0 0; mkVector2 1 0; mkVector2 1 1; mkVector2 1 2; mkVector2 2 2]
  = ("R D D R" +:+ String (ascii_of_nat 10) EmptyString).
Proof. reflexivity. Qed.

Example a_star_walled_off :
  a_star 20 (mkVector2 0 0) (mkVector2 2 0) test_world
  = Some (SysExit "No path could be found.").
Proof. vm_compute. reflexivity. Qed.

Example a_star_open_world :
  ∃ p, a_star 60 (mkVector2 0 0) (mkVector2 4 4) open_world = Some (Ok p)
       ∧ edges p = 8.
Proof. eexists. split; [vm_compute; reflexivity|reflexivity]. Qed.

(** * The claims *)

(** C1. In a rectangular grid, for in-bounds passable cells [s] and [e] that a
    4-directional passable route connects, [a_star] returns a path (with any
    fuel that is large enough) whose number of edges is the length of the
    shortest such route from [s] to [e]. *)
Theorem a_star_shortest (w : World) (s e : Vector2) :
  grid w → passable w s → passable w e → (∃ l, route w s e l) →
  ∃ p, (∃ fuel0 : nat, ∀ fuel : nat, (fuel0 ≤ fuel)%nat →
          a_star fuel s e w = Some (Ok p))
       ∧ shortest w s e (edges p).
Proof.
  intros Hg Hs _ [l0 Hl0].
  destruct (a_star_outcome w s e Hg) as [fuel0 Hout].
  destruct (Hout fuel0 (le_n _)) as [(st & l & Hrun & Hchain & Hnd & Hopt)|[_ Hno]];
    [|by destruct (Hno _ (route_walk _ _ _ _ Hl0))].
  exists (reverse (e :: l)). split.
  - exists fuel0. intros fuel Hfuel. by eapply a_star_mono.
  - rewrite edges_reverse_cons. split.
    + exists (reverse (e :: l)). split; [by eapply chain_route|].
      apply edges_reverse_cons.
    + intros l' Hl'. apply Hopt. by apply route_walk.
Qed.

Lemma a_star_shortest_witness :
  ∃ p, (∃ fuel0 : nat, ∀ fuel : nat, (fuel0 ≤ fuel)%nat →
          a_star fuel (mkVector2 0 0) (mkVector2 2 2) test_world = Some (Ok p))
       ∧ shortest test_world (mkVector2 0 0) (mkVector2 2 2) (edges p).
Proof.
  apply (a_star_shortest test_world (mkVector2 0 0) (mkVector2 2 2)).
  - split; [discriminate|]. split; [reflexivity|]. repeat constructor.
  - split; reflexivity.
  - split; reflexivity.
  - exists [mkVector2 0 0; mkVector2 1 0; mkVector2 1 1; mkVector2 1 2; mkVector2 2 2].
    split; [reflexivity|]. split; [reflexivity|]. split.
    + repeat (constructor; [split; reflexivity|]). constructor.
    + cbn. repeat split; reflexivity.
Defined.

(** C2. Under the same conditions the list that [a_star] returns begins with
    the start, ends with the end, has consecutive cells at Manhattan distance
    exactly 1, and holds no cell twice. *)
Theorem a_star_path_shape (w : World) (s e : Vector2) :
  grid w → passable w s → passable w e → (∃ l, route w s e l) →
  ∃ p, (∃ fuel0 : nat, ∀ fuel : nat, (fuel0 ≤ fuel)%nat →
          a_star fuel s e w = Some (Ok p))
       ∧ head p = Some s ∧ last p = Some e
       ∧ (∀ i a b, p !! i = Some a → p !! S i = Some b → cartesian_distance a b = 1)
       ∧ NoDup p.
Proof.
  intros Hg Hs _ [l0 Hl0].
  destruct (a_star_outcome w s e Hg) as [fuel0 Hout].
  destruct (Hout fuel0 (le_n _)) as [(st & l & Hrun & Hchain & Hnd & Hopt)|[_ Hno]];
    [|by destruct (Hno _ (route_walk _ _ _ _ Hl0))].
  exists (reverse (e :: l)).
  destruct (chain_route w s st e l Hchain Hs) as (Hhd & Hlast & _ & Hstep).
  split; [|split; [done|split; [done|split]]].
  - exists fuel0. intros fuel Hfuel. by eapply a_star_mono.
  - intros i a b. by apply stepwise_lookup.
  - by rewrite reverse_Permutation.
Qed.

Lemma a_star_path_shape_witness :
  ∃ p, (∃ fuel0 : nat, ∀ fuel : nat, (fuel0 ≤ fuel)%nat →
          a_star fuel (mkVector2 0 0) (mkVector2 1 2) test_world = Some (Ok p))
       ∧ head p = Some (mkVector2 0 0) ∧ last p = Some (mkVector2 1 2)
       ∧ (∀ i a b, p !! i = Some a → p !! S i = Some b → cartesian_distance a b = 1)
       ∧ NoDup p.
Proof.
  apply (a_star_path_shape test_world (mkVector2 0 0) (mkVector2 1 2)).
  - split; [discriminate|]. split; [reflexivity|]. repeat constructor.
  - split; reflexivity.
  - split; reflexivity.
  - exists [mkVector2 0 0; mkVector2 1 0; mkVector2 1 1; mkVector2 1 2].
    split; [reflexivity|]. split; [reflexivity|]. split.
    + repeat (constructor; [split; reflexivity|]). constructor.
    + cbn. repeat split; reflexivity.
Defined.

(** C3. From a passable start in a grid, [a_star] ends in one of two ways: it
    returns a path, or it leaves through [err] with the message that no path
    could be found; no exception escapes.  Whenever no passable 4-directional
    route connects start and end, it is the second. *)
Theorem a_star_no_path (w : World) (s e : Vector2) :
  grid w → passable w s →
  ∃ fuel0 : nat, ∀ fuel : nat, (fuel0 ≤ fuel)%nat →
    ((¬ ∃ l, route w s e l) →
       a_star fuel s e w = Some (SysExit "No path could be found."))
    ∧ ((∃ p, a_star fuel s e w = Some (Ok p))
       ∨ a_star fuel s e w = Some (SysExit "No path could be found.")).
Proof.
  intros Hg Hs. destruct (a_star_outcome w s e Hg) as [fuel0 Hout].
  exists fuel0. intros fuel Hfuel.
  destruct (Hout fuel Hfuel) as [(st & l & Hrun & Hchain & _)|[Hrun _]].
  - split; [|left; eauto]. intros Hno. destruct Hno.
    exists (reverse (e :: l)). by eapply chain_route.
  - split; [done|by right].
Qed.

Lemma a_star_no_path_witness :
  ∃ fuel0 : nat, ∀ fuel : nat, (fuel0 ≤ fuel)%nat →
    ((¬ ∃ l, route test_world (mkVector2 0 0) (mkVector2 2 0) l) →
       a_star fuel (mkVector2 0 0) (mkVector2 2 0) test_world
       = Some (SysExit "No path could be found."))
    ∧ ((∃ p, a_star fuel (mkVector2 0 0) (mkVector2 2 0) test_world = Some (Ok p))
       ∨ a_star fuel (mkVector2 0 0) (mkVector2 2 0) test_world
         = Some (SysExit "No path could be found.")).
Proof.
  apply (a_star_no_path test_world (mkVector2 0 0) (mkVector2 2 0)).
  - split; [discriminate|]. split; [reflexivity|]. repeat constructor.
  - split; reflexivity.
Defined.

(** C4. When start and end are the same cell [c], [a_star] returns exactly
    [[c]]: one pass of the main loop pops [c] and breaks.  This needs nothing
    of the world or of [c]. *)
Theorem a_star_start_is_end (fuel : nat) (w : World) (c : Vector2) :
  a_star (S fuel) c c w = Some (Ok [c]).
Proof. apply a_star_same. Qed.

(** C5, as the code has it.  For a cell inside a grid, [is_empty] returns a
    boolean, and false when the cell is marked as an obstacle; when the
    entries of the grid are all the token 0 or the token 1, it returns true
    if and only if the cell is not marked as an obstacle.  The test that the
    cell is inside the grid is not part of [is_empty]; it is [point_inside],
    which [neighbours] calls first. *)
Theorem is_empty_inside_iff (w : World) (p : Vector2) :
  grid w → point_inside w p = true →
  (∃ b, is_empty w p = Ok b)
  ∧ (obstacle w p → is_empty w p = Ok false)
  ∧ (binary w → (is_empty w p = Ok true ↔ ¬ obstacle w p)).
Proof.
  intros Hg Hin.
  destruct (World_getitem_inside w p Hg Hin) as (row & tok & Htok & Hrow & Hcell).
  unfold is_empty, obstacle. rewrite Htok. cbn [bind]. split; [eauto|]. split.
  { by intros [= ->]. }
  intros Hb.
  assert (tok = "0"%string ∨ tok = "1"%string) as [-> | ->].
  { eapply Forall_lookup_1 in Hb; [|exact Hrow].
    by eapply Forall_lookup_1 in Hb. }
  - split; [|done]. intros _ [=].
  - split; [intros [=]|]. intros H. by destruct H.
Qed.

Lemma is_empty_inside_iff_witness :
  (∃ b, is_empty test_world (mkVector2 1 1) = Ok b)
  ∧ (obstacle test_world (mkVector2 1 1) → is_empty test_world (mkVector2 1 1) = Ok false)
  ∧ (binary test_world →
     (is_empty test_world (mkVector2 1 1) = Ok true
      ↔ ¬ obstacle test_world (mkVector2 1 1))).
Proof.
  apply (is_empty_inside_iff test_world (mkVector2 1 1)).
  - split; [discriminate|]. split; [reflexivity|]. repeat constructor.
  - reflexivity.
Defined.

(** C5 as stated fails outside the grid: for the cell (-1, 2) of the fixture
    the index -1 wraps around to the last column, whose entry in row 2 is 0,
    and [is_empty] returns true although the cell is not inside the grid. *)
Lemma is_empty_outside_true :
  ¬ (is_empty test_world (mkVector2 (-1) 2) = Ok true
     ↔ (point_inside test_world (mkVector2 (-1) 2) = true
        ∧ ¬ obstacle test_world (mkVector2 (-1) 2))).
Proof.
  intros [H _]. destruct (H eq_refl) as [Hin _]. vm_compute in Hin. discriminate.
Qed.

(** The restriction to the tokens 0 and 1 is needed as well: an entry that
    is neither, 2 say, is not the mark of an obstacle, and [is_empty], which
    compares with 0 alone, returns false on it. *)
Example is_empty_other_token :
  grid (mkWorld [["2"%string]] 1 1)
  ∧ point_inside (mkWorld [["2"%string]] 1 1) (mkVector2 0 0) = true
  ∧ is_empty (mkWorld [["2"%string]] 1 1) (mkVector2 0 0) = Ok false
  ∧ ¬ obstacle (mkWorld [["2"%string]] 1 1) (mkVector2 0 0).
Proof.
  split; [|split; [done|split; [done|]]].
  - split; [done|]. split; [done|]. by repeat constructor.
  - intros H. vm_compute in H. discriminate.
Qed.

(** C6. In a grid, for a cell [p] inside it, [neighbours] returns those of
    the cells (x-1,y), (x+1,y), (x,y+1), (x,y-1), in this order, that are
    inside the grid and passable. *)
Theorem neighbours_in_order (w : World) (p : Vector2) :
  grid w → point_inside w p = true →
  neighbours w p
  = Ok (filter (passable w)
          [ mkVector2 (x p - 1) (y p); mkVector2 (x p + 1) (y p);
            mkVector2 (x p) (y p + 1); mkVector2 (x p) (y p - 1) ]).
Proof. intros Hg _. by apply neighbours_filter. Qed.

Lemma neighbours_in_order_witness :
  neighbours test_world (mkVector2 1 1)
  = Ok (filter (passable test_world)
          [ mkVector2 (1 - 1) 1; mkVector2 (1 + 1) 1;
            mkVector2 1 (1 + 1); mkVector2 1 (1 - 1) ]).
Proof.
  apply (neighbours_in_order test_world (mkVector2 1 1)).
  - split; [discriminate|]. split; [reflexivity|]. repeat constructor.
  - reflexivity.
Defined.

(** C7. Along the history of the cost map of a run, a cell that has a cost
    keeps one, its cost never grows, and each pass of the inner loop either
    leaves the map as it is or assigns once, to a cell that had no cost or
    had a strictly larger one. *)
Theorem cost_history_monotone (fuel : nat) (s e : Vector2) (w : World)
    (i j : nat) (ci cj : gmap Vector2 Z) :
  (i ≤ j)%nat →
  cost_history fuel s e w !! i = Some ci →
  cost_history fuel s e w !! j = Some cj →
  dom ci ⊆ dom cj
  ∧ (∀ c ki kj, ci !! c = Some ki → cj !! c = Some kj → kj <= ki)
  ∧ (j = S i → cost_write ci cj).
Proof.
  intros Hij Hi Hj. unfold cost_history in *.
  rewrite list_lookup_fmap in Hi, Hj.
  destruct (_ !! i) as [u|] eqn:Hu; [|done]. injection Hi as <-.
  destruct (_ !! j) as [v|] eqn:Hv; [|done]. injection Hj as <-.
  destruct (linked_lookup (λ u v, cost_write (cost u) (cost v))
              (λ u v, cost_le (cost u) (cost v))
              (a_star_trace fuel e w (a_star_init s)))
    with (a := a_star_init s) (i := i) (j := j) (u := u) (v := v) as [Hle Hstep].
  - intros a b. apply cost_write_le.
  - intros a. apply cost_le_refl.
  - intros a b c. apply cost_le_trans.
  - apply a_star_trace_linked.
  - done.
  - done.
  - done.
  - split; [|split; [|done]].
    + intros c Hc. apply elem_of_dom in Hc as [k Hk].
      destruct (Hle c k Hk) as (k' & Hk' & _). apply elem_of_dom. eauto.
    + intros c ki kj Hki Hkj. destruct (Hle c ki Hki) as (k' & Hk' & ?).
      assert (k' = kj) by congruence. lia.
Qed.

Lemma cost_history_monotone_witness :
  dom ({[ mkVector2 0 0 := 0 ]} : gmap Vector2 Z)
    ⊆ dom (<[ mkVector2 1 0 := 1 ]> {[ mkVector2 0 0 := 0 ]} : gmap Vector2 Z)
  ∧ (∀ c ki kj,
       ({[ mkVector2 0 0 := 0 ]} : gmap Vector2 Z) !! c = Some ki →
       (<[ mkVector2 1 0 := 1 ]> {[ mkVector2 0 0 := 0 ]} : gmap Vector2 Z) !! c = Some kj →
       kj <= ki)
  ∧ (1%nat = 1%nat →
     cost_write {[ mkVector2 0 0 := 0 ]}
       (<[ mkVector2 1 0 := 1 ]> {[ mkVector2 0 0 := 0 ]})).
Proof.
  apply (cost_history_monotone 3 (mkVector2 0 0) (mkVector2 2 2) test_world 0 1).
  - lia.
  - vm_compute. reflexivity.
  - vm_compute. reflexivity.
Defined.

Lemma a_star_loop_passes (w : World) (e : Vector2) (fuel : nat) :
  ∀ st ex st', a_star_loop fuel e w st = Some (Ok (ex, st')) →
    ∃ (k : nat) st0,
      passes e w k st st0
      ∧ match ex with
        | GoalReached =>
            empty (looking_at st0) = false
            ∧ pop (looking_at st0) = (Some e, looking_at st')
            ∧ parent st' = parent st0 ∧ cost st' = cost st0
        | FrontierEmpty => looking_at st0 = [] ∧ st' = st0
        end.
Proof.
  induction fuel as [|fuel IH]; intros st ex st'; cbn [a_star_loop]; [done|].
  destruct (empty (looking_at st)) eqn:Hempty.
  { intros [= <- <-]. exists 0%nat, st. split; [constructor|].
    split; [|done]. by destruct (looking_at st). }
  destruct (pop (looking_at st)) as [[current|] q] eqn:Hpop; [|done].
  destruct (decide (current = e)) as [->|Hne].
  { intros [= <- <-]. exists 0%nat, st. split; [constructor|]. done. }
  destruct (neighbours w current) as [ns| |] eqn:Hns; [|done..].
  destruct (visit_all e current _ ns) as [st2| |] eqn:Hv; [|done..].
  intros Hloop. destruct (IH st2 ex st' Hloop) as (k & st0 & Hpasses & Hex).
  exists (S k), st0. split; [|done]. by econstructor.
Qed.

(** C8. In a grid, for start and end cells inside it, [a_star] terminates:
    after finitely many passes that do not break, the main loop stands at
    its head either with an empty queue, and ends there, or with a queue
    from which [pop] takes the goal, and ends by [break]; from some fuel on
    the loop returns that exit and that state, and the call completes. *)
Theorem a_star_terminates (w : World) (s e : Vector2) :
  grid w → point_inside w s = true → point_inside w e = true →
  ∃ (k : nat) st0 ex st',
    passes e w k (a_star_init s) st0
    ∧ match ex with
      | GoalReached =>
          empty (looking_at st0) = false
          ∧ pop (looking_at st0) = (Some e, looking_at st')
          ∧ parent st' = parent st0 ∧ cost st' = cost st0
      | FrontierEmpty => looking_at st0 = [] ∧ st' = st0
      end
    ∧ ∃ fuel0 : nat, ∀ fuel : nat, (fuel0 ≤ fuel)%nat →
        a_star_loop fuel e w (a_star_init s) = Some (Ok (ex, st'))
        ∧ ∃ r, a_star fuel s e w = Some r.
Proof.
  intros Hg _ _.
  pose proof (a_star_init_inv w s e) as Hinit.
  pose proof (measure_nonneg _ _ _ _ _ Hinit) as Hm.
  destruct (a_star_outcome w s e Hg) as [fuel1 Hout].
  set (fuel0 := (fuel1 `max` S (Z.to_nat (measure w s (a_star_init s))))%nat).
  destruct (a_star_loop_ends w s e Hg fuel0 (a_star_init s) Hinit)
    as (ex & st' & Hloop & _); [lia|].
  destruct (a_star_loop_passes w e fuel0 _ _ _ Hloop) as (k & st0 & Hpasses & Hex).
  exists k, st0, ex, st'. split; [done|]. split; [done|].
  exists fuel0. intros fuel Hfuel. split; [by eapply a_star_loop_mono|].
  destruct (Hout fuel ltac:(lia)) as [(st & l & Hrun & _)|[Hrun _]]; eauto.
Qed.

Lemma a_star_terminates_witness :
  ∃ (k : nat) st0 ex st',
    passes (mkVector2 2 2) test_world k (a_star_init (mkVector2 0 0)) st0
    ∧ match ex with
      | GoalReached =>
          empty (looking_at st0) = false
          ∧ pop (looking_at st0) = (Some (mkVector2 2 2), looking_at st')
          ∧ parent st' = parent st0 ∧ cost st' = cost st0
      | FrontierEmpty => looking_at st0 = [] ∧ st' = st0
      end
    ∧ ∃ fuel0 : nat, ∀ fuel : nat, (fuel0 ≤ fuel)%nat →
        a_star_loop fuel (mkVector2 2 2) test_world (a_star_init (mkVector2 0 0))
        = Some (Ok (ex, st'))
        ∧ ∃ r, a_star fuel (mkVector2 0 0) (mkVector2 2 2) test_world = Some r.
Proof.
  apply (a_star_terminates test_world (mkVector2 0 0) (mkVector2 2 2)).
  - split; [discriminate|]. split; [reflexivity|]. repeat constructor.
  - reflexivity.
  - reflexivity.
Defined.

(** C9. For every path that [a_star] returns, reading the letters the encoder
    prints for it, one step at a time from the first cell of the path, gives
    back the cells of the path. *)
Theorem encode_replay (fuel : nat) (s e : Vector2) (w : World) (path : list Vector2) :
  a_star fuel s e w = Some (Ok path) →
  ∃ first, head path = Some first ∧ first :: replay first (encode path) = path.
Proof.
  intros Hrun. destruct (a_star_stepwise fuel s e w path Hrun) as [Hstep Hne].
  destruct path as [|first rest]; [done|]. exists first. split; [done|].
  unfold encode. cbn [encode_loop]. rewrite replay_encode_loop by done.
  cbn. by rewrite app_nil_r.
Qed.

Lemma encode_replay_witness :
  ∃ first,
    head [mkVector2 0 0; mkVector2 1 0; mkVector2 1 1; mkVector2 1 2; mkVector2 2 2]
    = Some first
    ∧ first :: replay first
        (encode [mkVector2 0 0; mkVector2 1 0; mkVector2 1 1; mkVector2 1 2; mkVector2 2 2])
      = [mkVector2 0 0; mkVector2 1 0; mkVector2 1 1; mkVector2 1 2; mkVector2 2 2].
Proof.
  apply (encode_replay 20 (mkVector2 0 0) (mkVector2 2 2) test_world).
  vm_compute. reflexivity.
Defined.

(** C10. After any calls of [put] and [pop], [pop] on a queue that is not
    empty returns the data of an entry of least priority, the one put first
    among those of least priority, and removes that entry.  Since nothing in
    [a_star] is left to chance, two completed runs on the same input give
    the same result. *)
Theorem pop_earliest_min {A : Type} (ops : list (op A)) (q h : list (Z * A)) :
  run ops [] [] = (q, h) → q ≠ [] →
  (q ≡ₚ h
   ∧ ∃ i p d,
       h !! i = Some (p, d)
       ∧ (∀ j p' d', h !! j = Some (p', d') → p <= p' ∧ (p' = p → (i ≤ j)%nat))
       ∧ (pop q).1 = Some d
       ∧ (p, d) :: (pop q).2 ≡ₚ q
       ∧ run (ops ++ [Pop]) [] [] = ((pop q).2, delete i h))
  ∧ (∀ (n1 n2 : nat) s e w r1 r2,
       a_star n1 s e w = Some r1 → a_star n2 s e w = Some r2 → r1 = r2).
Proof.
  intros Hrun Hq. split; [|intros n1 n2 s e w r1 r2; apply a_star_fuel_irrelevant].
  assert (sort q = sort h) as Hsort by (by eapply (run_sort ops [] [])).
  assert (q ≡ₚ h) as Hperm by (by rewrite <- (sort_perm q), Hsort, sort_perm).
  split; [done|].
  destruct (pop_nonempty q Hq) as (e0 & rest & Hsq & Hpop).
  destruct (earliest_min h) as [[i p]|] eqn:Hm.
  - destruct (earliest_min_spec h i p Hm) as (d & Hd & Hmin).
    destruct (earliest_min_sort h i p Hm) as (e1 & He1 & _ & Hsh).
    assert (e1 = (p, d)) as -> by congruence.
    rewrite Hsq, Hsh in Hsort. injection Hsort as -> Hrest.
    exists i, p, d. rewrite Hpop. cbn [fst snd]. split; [done|]. split; [done|].
    split; [done|]. split; [by rewrite <- Hsq, sort_perm|].
    rewrite run_app, Hrun. cbn [run fst snd]. rewrite Hpop. cbn [snd].
    unfold chrono_pop. by rewrite Hm.
  - apply earliest_min_None in Hm as ->. apply Permutation_nil_r in Hperm. done.
Qed.

Lemma pop_earliest_min_witness :
  (sample_queue ≡ₚ sample_history
   ∧ ∃ i p d,
       sample_history !! i = Some (p, d)
       ∧ (∀ j p' d', sample_history !! j = Some (p', d') →
            p <= p' ∧ (p' = p → (i ≤ j)%nat))
       ∧ (pop sample_queue).1 = Some d
       ∧ (p, d) :: (pop sample_queue).2 ≡ₚ sample_queue
       ∧ run (sample_ops ++ [Pop]) [] [] = ((pop sample_queue).2, delete i sample_history))
  ∧ (∀ (n1 n2 : nat) s e w r1 r2,
       a_star n1 s e w = Some r1 → a_star n2 s e w = Some r2 → r1 = r2).
Proof.
  apply (pop_earliest_min sample_ops sample_queue sample_history).
  - reflexivity.
  - discriminate.
Defined.

(** * Further properties *)

(** ** Any world: what [neighbours] and the main loop do without a grid *)

Lemma getitem_not_exit {A : Type} (l : list A) (i : Z) (msg : string) :
  getitem l i ≠ SysExit msg.
Proof.
  unfold getitem. destruct (_ || _); [done|]. by destruct (l !! _).
Qed.

Lemma getitem_raise {A : Type} (l : list A) (i : Z) (ex : exn) :
  getitem l i = Raise ex → ex = IndexError.
Proof.
  unfold getitem. destruct (_ || _); [by intros [= <-]|].
  destruct (l !! _); [done|by intros [= <-]].
Qed.

Lemma is_empty_raise (w : World) (p : Vector2) (ex : exn) :
  is_empty w p = Raise ex → ex = IndexError.
Proof.
  unfold is_empty, World_getitem.
  destruct (getitem (data w) (y p)) as [row| |] eqn:Hrow; cbn [bind].
  - destruct (getitem row (x p)) as [tok| |] eqn:Htok; cbn [bind]; [done| |done].
    intros [= <-]. by eapply getitem_raise.
  - intros [= <-]. by eapply getitem_raise.
  - done.
Qed.

Lemma is_empty_not_exit (w : World) (p : Vector2) (msg : string) :
  is_empty w p ≠ SysExit msg.
Proof.
  unfold is_empty, World_getitem.
  destruct (getitem (data w) (y p)) as [row| |] eqn:Hrow; cbn [bind]; [|done|].
  - destruct (getitem row (x p)) as [tok| |] eqn:Htok; cbn [bind]; [done..|].
    by apply getitem_not_exit in Htok.
  - by apply getitem_not_exit in Hrow.
Qed.

Lemma neighbours_loop_any (w : World) (todo acc : list Vector2) :
  (∃ ns, neighbours_loop w acc todo = Ok ns ∧ ns = acc ++ filter (passable w) todo)
  ∨ neighbours_loop w acc todo = Raise IndexError.
Proof.
  revert acc. induction todo as [|q todo IH]; intros acc.
  { left. exists acc. cbn. by rewrite app_nil_r. }
  rewrite filter_cons. cbn [neighbours_loop].
  destruct (point_inside w q) eqn:Hin.
  - destruct (is_empty w q) as [[|]|ex|msg] eqn:He; cbn [bind].
    + rewrite decide_True by done.
      destruct (IH (acc ++ [q])) as [(ns & -> & ->)| ->]; [left|by right].
      eexists. split; [done|]. by rewrite <- app_assoc.
    + rewrite decide_False by (intros [_ H]; congruence). apply IH.
    + right. by rewrite (is_empty_raise w q ex He).
    + by apply is_empty_not_exit in He.
  - rewrite decide_False by (intros [H _]; congruence). apply IH.
Qed.

Lemma neighbours_any (w : World) (p : Vector2) :
  (∃ ns, neighbours w p = Ok ns ∧ NoDup ns ∧ ∀ q, q ∈ ns ↔ edge w p q)
  ∨ neighbours w p = Raise IndexError.
Proof.
  unfold neighbours.
  destruct (neighbours_loop_any w (potential p) []) as [(ns & -> & ->)| ->];
    [left|by right].
  eexists. split; [done|]. cbn [app]. split.
  - apply NoDup_filter. unfold potential.
    repeat (apply NoDup_cons; split; [rewrite ?elem_of_cons, elem_of_nil;
      intros H; repeat destruct H as [H|H]; try done; injection H; lia|]).
    apply NoDup_nil_2.
  - intros q. rewrite list_elem_of_filter. unfold edge. tauto.
Qed.

Lemma a_star_loop_ends_any (w : World) (s e : Vector2) :
  ∀ (fuel : nat) st, inv w s e None st → measure w s st < Z.of_nat fuel →
    (∃ ex st', a_star_loop fuel e w st = Some (Ok (ex, st'))
               ∧ loop_post w s e ex st')
    ∨ a_star_loop fuel e w st = Some (Raise IndexError).
Proof.
  induction fuel as [|fuel IH]; intros st Hinv Hfuel.
  { pose proof (measure_nonneg _ _ _ _ _ Hinv). lia. }
  cbn [a_star_loop]. destruct (looking_at st) as [|a q0] eqn:Hq.
  { cbn [empty]. left. exists FrontierEmpty, st. split; [done|]. exists st. done. }
  cbn [empty]. rewrite <- Hq.
  destruct (pop_min (looking_at st)) as (f & n & rest & Hpop & Hperm & Hmin);
    [by rewrite Hq|].
  rewrite Hpop.
  assert ((f, n) ∈ looking_at st) as Hin.
  { rewrite <- Hperm. apply list_elem_of_here. }
  destruct (pop_optimal w s e st f n Hinv Hin Hmin) as (kn & Hkn & Hopt).
  destruct (decide (n = e)) as [->|Hne].
  { left. eexists GoalReached, _. split; [done|].
    exists st. split; [done|]. split; [done|]. split; [done|].
    split; [done|]. by exists kn. }
  destruct (neighbours_any w n) as [(ns & -> & _ & Hns)| ->]; [|by right].
  pose proof (popped_inv w s e st f n rest Hinv Hperm Hne) as Hinv1.
  pose proof (popped_measure w s st f n rest Hperm) as Hm1.
  pose proof (optimal_bound w s e None st n kn Hinv Hkn Hopt) as HB.
  destruct (visit_all_inv w s e n ns _ kn Hinv1 Hkn) as
    (st2 & -> & Hinv2 & Hkn2 & Hle2 & Hcl2 & Hm2); [by intros q Hq'; apply Hns|done|].
  apply IH; [|lia].
  eapply visited_inv; [done..|]. intros q Hedge. by apply Hcl2, Hns.
Qed.

Lemma a_star_outcome_any (w : World) (s e : Vector2) :
  ∃ fuel0 : nat, ∀ fuel : nat, (fuel0 ≤ fuel)%nat →
    (∃ st l, a_star fuel s e w = Some (Ok (reverse (e :: l)))
             ∧ chain w s st e l ∧ NoDup (e :: l)
             ∧ ∀ d, walk w s e d → len l <= d)
    ∨ (a_star fuel s e w = Some (SysExit "No path could be found.")
       ∧ ∀ d, ¬ walk w s e d)
    ∨ a_star fuel s e w = Some (Raise IndexError).
Proof.
  exists (S (Z.to_nat (measure w s (a_star_init s)) + size (cells w s))).
  intros fuel Hfuel.
  pose proof (a_star_init_inv w s e) as Hinit.
  pose proof (measure_nonneg _ _ _ _ _ Hinit) as Hm.
  destruct (decide (e = s)) as [->|Hes].
  { left. exists (a_star_init s), []. destruct fuel as [|fuel]; [lia|].
    rewrite a_star_same. split; [done|]. split; [constructor|].
    split; [apply NoDup_singleton|]. intros d Hd. by eapply walk_nonneg. }
  destruct (a_star_loop_ends_any w s e fuel (a_star_init s) Hinit)
    as [(ex & st' & Hloop & (st0 & Hinv0 & Hpar & Hcost & Hex))|Hloop]; [lia| |].
  2: { right. right. unfold a_star. by rewrite Hloop. }
  unfold a_star. rewrite Hloop, Hpar. destruct ex.
  - destruct Hex as (_ & k & Hk & Hopt).
    destruct (chain_exists w s e None st0 Hinv0 k e Hk) as (l & Hchain & Hlen & Hnd & _).
    left. exists st0, l.
    pose proof (chain_bound _ _ _ _ _ Hchain Hnd) as Hb.
    rewrite (follow_chain w s st0 e l Hchain) by (unfold len in Hb; lia).
    split; [done|]. split; [done|]. split; [done|].
    intros d Hd. specialize (Hopt d Hd). lia.
  - destruct Hex as [Hq0 _]. right. left.
    assert (cost st0 !! e = None) as Hnone.
    { destruct (cost st0 !! e) as [k|] eqn:Hk; [|done].
      destruct (inv_goal _ _ _ _ _ Hinv0 k Hes Hk) as [f Hf].
      rewrite Hq0 in Hf. by apply elem_of_nil in Hf. }
    split.
    + destruct fuel as [|fuel]; [lia|]. cbn [follow].
      rewrite decide_False by done.
      by rewrite (inv_parent_dom _ _ _ _ _ Hinv0 e Hnone).
    + intros d Hd.
      destruct (walk_progress w s e st0 e d Hinv0 Hd)
        as [(k & Hk & _)|(f & c' & Hin & _)]; [congruence|].
      rewrite Hq0 in Hin. by apply elem_of_nil in Hin.
Qed.

(** ** Paths, walks and the heuristic *)

Lemma walk_of_steps (w : World) (s : Vector2) (l : list Vector2) :
  ∀ a b d, walk w s a d → head l = Some a → last l = Some b →
    Forall (passable w) (tail l) → stepwise l → walk w s b (d + edges l).
Proof.
  induction l as [|c l IH]; intros a b d Hwalk Hhd Hlast Hpass Hstep; [done|].
  assert (c = a) as -> by (cbn in Hhd; congruence). destruct l as [|c' l].
  - assert (b = a) as -> by (cbn in Hlast; congruence).
    change (edges [a]) with 0. by rewrite Z.add_0_r.
  - rewrite stepwise_cons in Hstep. destruct Hstep as [Hac Hstep].
    cbn [tail] in Hpass. apply Forall_cons in Hpass as [Hc' Hpass].
    replace (d + edges (a :: c' :: l)) with ((d + 1) + edges (c' :: l))
      by (unfold edges, len; cbn [length]; lia).
    apply (IH c'); [|done|done|done|done].
    econstructor; [done|]. split; [by apply potential_adjacent|done].
Qed.

Lemma walk_distance (w : World) (s c : Vector2) (d : Z) :
  walk w s c d → cartesian_distance s c <= d.
Proof.
  induction 1 as [|c q d Hwalk IH Hedge].
  - unfold cartesian_distance. lia.
  - pose proof (heuristic_step s c q (proj1 Hedge)) as H1.
    apply proj1, potential_adjacent in Hedge.
    unfold cartesian_distance in *. lia.
Qed.

Lemma chain_passable_or_start (w : World) (s : Vector2) (st : state) (c : Vector2)
    (l : list Vector2) :
  chain w s st c l → ∀ a, a ∈ c :: l → a = s ∨ passable w a.
Proof.
  induction 1 as [|c p l Hcs Hp Hedge Hchain IH]; intros a Ha.
  - apply list_elem_of_singleton in Ha. by left.
  - apply elem_of_cons in Ha as [->|Ha]; [right; apply Hedge|by apply IH].
Qed.

Lemma route_reverse (w : World) (s e : Vector2) (l : list Vector2) :
  route w s e l → route w e s (reverse l).
Proof.
  intros (Hhd & Hlast & Hpass & Hstep). split; [|split; [|split]].
  - by rewrite head_reverse.
  - by rewrite last_reverse.
  - by apply Forall_reverse.
  - by apply stepwise_reverse.
Qed.

Lemma a_star_returned (fuel : nat) (w : World) (s e : Vector2) (p : list Vector2) :
  a_star fuel s e w = Some (Ok p) →
  ∃ st l, p = reverse (e :: l) ∧ chain w s st e l ∧ NoDup (e :: l)
          ∧ ∀ d, walk w s e d → len l <= d.
Proof.
  intros Hrun. destruct (a_star_outcome_any w s e) as [fuel0 Hout].
  apply (a_star_mono _ (fuel `max` fuel0)) in Hrun; [|lia].
  destruct (Hout (fuel `max` fuel0)%nat ltac:(lia))
    as [(st & l & Hrun' & Hrest)|[[Hrun' _]|Hrun']]; [|congruence..].
  exists st, l. split; [congruence|done].
Qed.

(** In a world without walls a walk as long as the distance joins any two
    cells inside it. *)
Lemma unobstructed_walk (w : World) (s : Vector2) :
  unobstructed w → point_inside w s = true →
  ∀ (n : nat) e, point_inside w e = true → cartesian_distance s e = Z.of_nat n →
    walk w s e (Z.of_nat n).
Proof.
  intros Hopen Hs. induction n as [|n IH]; intros e He Hd.
  - assert (e = s) as ->; [|constructor].
    destruct s, e. unfold cartesian_distance in Hd. cbn in Hd. f_equal; lia.
  - unfold point_inside in Hs, He. unfold cartesian_distance in Hd.
    assert (∃ c, point_inside w c = true ∧ cartesian_distance s c = Z.of_nat n
                 ∧ e ∈ potential c) as (c & Hc & Hdc & Hce).
    { destruct (decide (x e = x s)) as [Hx|Hx].
      - destruct (decide (y e < y s)).
        + exists (mkVector2 (x e) (y e + 1)).
          unfold point_inside, cartesian_distance. cbn [x y].
          split; [lia|]. split; [lia|]. apply elem_of_potential.
          destruct e. cbn [x y]. do 3 right. f_equal; lia.
        + exists (mkVector2 (x e) (y e - 1)).
          unfold point_inside, cartesian_distance. cbn [x y].
          split; [lia|]. split; [lia|]. apply elem_of_potential.
          destruct e. cbn [x y]. do 2 right. left. f_equal; lia.
      - destruct (decide (x e < x s)).
        + exists (mkVector2 (x e + 1) (y e)).
          unfold point_inside, cartesian_distance. cbn [x y].
          split; [lia|]. split; [lia|]. apply elem_of_potential.
          destruct e. cbn [x y]. left. f_equal; lia.
        + exists (mkVector2 (x e - 1) (y e)).
          unfold point_inside, cartesian_distance. cbn [x y].
          split; [lia|]. split; [lia|]. apply elem_of_potential.
          destruct e. cbn [x y]. right. left. f_equal; lia. }
    replace (Z.of_nat (S n)) with (Z.of_nat n + 1) by lia.
    econstructor; [by apply IH|]. split; [done|]. split; [|by apply Hopen].
    unfold point_inside. lia.
Qed.

Lemma edges_reverse (l : list Vector2) : edges (reverse l) = edges l.
Proof. unfold edges, len. by rewrite length_reverse. Qed.

(** X1. In any world, rectangular or not, and for any start and end, inside
    it or not, [a_star] terminates, and in one of three ways: it returns a
    path, it leaves through [err] with the message that no path could be
    found, or [IndexError] escapes from a look-up in a row that is too short.
    It never fails on its own dictionaries or on an empty queue. *)
Theorem a_star_total (w : World) (s e : Vector2) :
  ∃ fuel0 : nat, ∀ fuel : nat, (fuel0 ≤ fuel)%nat →
    (∃ p, a_star fuel s e w = Some (Ok p))
    ∨ a_star fuel s e w = Some (SysExit "No path could be found.")
    ∨ a_star fuel s e w = Some (Raise IndexError).
Proof.
  destruct (a_star_outcome_any w s e) as [fuel0 Hout]. exists fuel0.
  intros fuel Hfuel.
  destruct (Hout fuel Hfuel) as [(st & l & Hrun & _)|[[Hrun _]|Hrun]]; eauto.
Qed.

Lemma a_star_path_facts (fuel : nat) (w : World) (s e : Vector2) (p : list Vector2) :
  a_star fuel s e w = Some (Ok p) →
  head p = Some s ∧ last p = Some e ∧ NoDup p ∧ Forall (passable w) (tail p)
  ∧ ∀ l, head l = Some s → last l = Some e → stepwise l →
         Forall (passable w) (tail l) → edges p <= edges l.
Proof.
  intros Hrun.
  destruct (a_star_returned fuel w s e p Hrun) as (st & l & -> & Hchain & Hnd & Hopt).
  assert (head (reverse (e :: l)) = Some s) as Hhd.
  { rewrite head_reverse. by eapply chain_last. }
  assert (NoDup (reverse (e :: l))) as Hnd' by (by rewrite reverse_Permutation).
  split; [done|]. split; [by rewrite last_reverse|]. split; [done|]. split.
  - destruct (reverse (e :: l)) as [|a rest] eqn:Hrev; [done|].
    injection Hhd as ->. cbn [tail]. apply Forall_forall. intros a Ha.
    apply NoDup_cons in Hnd' as [Hs _].
    destruct (chain_passable_or_start w s st e l Hchain a) as [->|Hpass]; [|done..].
    apply elem_of_reverse. rewrite Hrev. by apply list_elem_of_further.
  - intros l' Hhd' Hlast' Hstep' Hpass'. rewrite edges_reverse_cons. apply Hopt.
    replace (edges l') with (0 + edges l') by lia.
    eapply walk_of_steps; [constructor|done..].
Qed.

(** X2. Whatever the world and the end points, a path that [a_star] returns
    starts with the start, ends with the end, holds no cell twice, steps only
    on cells that are inside the world and empty (the start, which nobody
    checks, apart), and no list of single steps over such cells from the start
    to the end has fewer edges. *)
Theorem a_star_path_any (fuel : nat) (w : World) (s e : Vector2) (p : list Vector2) :
  a_star fuel s e w = Some (Ok p) →
  head p = Some s ∧ last p = Some e ∧ NoDup p ∧ Forall (passable w) (tail p)
  ∧ ∀ l, head l = Some s → last l = Some e → stepwise l →
         Forall (passable w) (tail l) → edges p <= edges l.
Proof. apply a_star_path_facts. Qed.

Lemma a_star_path_any_witness :
  head [mkVector2 0 1; mkVector2 1 1; mkVector2 1 2; mkVector2 2 2] = Some (mkVector2 0 1)
  ∧ last [mkVector2 0 1; mkVector2 1 1; mkVector2 1 2; mkVector2 2 2] = Some (mkVector2 2 2)
  ∧ NoDup [mkVector2 0 1; mkVector2 1 1; mkVector2 1 2; mkVector2 2 2]
  ∧ Forall (passable test_world)
      (tail [mkVector2 0 1; mkVector2 1 1; mkVector2 1 2; mkVector2 2 2])
  ∧ ∀ l, head l = Some (mkVector2 0 1) → last l = Some (mkVector2 2 2) → stepwise l →
         Forall (passable test_world) (tail l) →
         edges [mkVector2 0 1; mkVector2 1 1; mkVector2 1 2; mkVector2 2 2] <= edges l.
Proof.
  apply (a_star_path_any 20 test_world (mkVector2 0 1) (mkVector2 2 2)).
  vm_compute. reflexivity.
Defined.

(** X3. On a grid, between two passable cells, the search gives the same in
    both directions: paths with the same number of edges, or no path either
    way. *)
Theorem a_star_symmetric (w : World) (s e : Vector2) :
  grid w → passable w s → passable w e →
  ∃ fuel0 : nat, ∀ fuel : nat, (fuel0 ≤ fuel)%nat →
    (∃ p1 p2, a_star fuel s e w = Some (Ok p1) ∧ a_star fuel e s w = Some (Ok p2)
              ∧ edges p1 = edges p2)
    ∨ (a_star fuel s e w = Some (SysExit "No path could be found.")
       ∧ a_star fuel e s w = Some (SysExit "No path could be found.")).
Proof.
  intros Hg Hs He.
  destruct (a_star_outcome w s e Hg) as [fuel1 Hout1].
  destruct (a_star_outcome w e s Hg) as [fuel2 Hout2].
  exists (fuel1 `max` fuel2)%nat. intros fuel Hfuel.
  destruct (Hout1 fuel ltac:(lia)) as [(st1 & l1 & Hrun1 & Hch1 & _ & Hopt1)|[Hrun1 Hno1]];
    destruct (Hout2 fuel ltac:(lia)) as [(st2 & l2 & Hrun2 & Hch2 & _ & Hopt2)|[Hrun2 Hno2]].
  - left. eexists _, _. split; [done|]. split; [done|].
    rewrite !edges_reverse_cons.
    pose proof (route_walk _ _ _ _ (route_reverse _ _ _ _ (chain_route _ _ _ _ _ Hch1 Hs))) as H1.
    pose proof (route_walk _ _ _ _ (route_reverse _ _ _ _ (chain_route _ _ _ _ _ Hch2 He))) as H2.
    rewrite edges_reverse in H1, H2. rewrite edges_reverse_cons in H1, H2.
    specialize (Hopt2 _ H1). specialize (Hopt1 _ H2). lia.
  - destruct (Hno2 _ (route_walk _ _ _ _
      (route_reverse _ _ _ _ (chain_route _ _ _ _ _ Hch1 Hs)))).
  - destruct (Hno1 _ (route_walk _ _ _ _
      (route_reverse _ _ _ _ (chain_route _ _ _ _ _ Hch2 He)))).
  - by right.
Qed.

Lemma a_star_symmetric_witness :
  ∃ fuel0 : nat, ∀ fuel : nat, (fuel0 ≤ fuel)%nat →
    (∃ p1 p2, a_star fuel (mkVector2 0 0) (mkVector2 2 2) test_world = Some (Ok p1)
              ∧ a_star fuel (mkVector2 2 2) (mkVector2 0 0) test_world = Some (Ok p2)
              ∧ edges p1 = edges p2)
    ∨ (a_star fuel (mkVector2 0 0) (mkVector2 2 2) test_world
       = Some (SysExit "No path could be found.")
       ∧ a_star fuel (mkVector2 2 2) (mkVector2 0 0) test_world
         = Some (SysExit "No path could be found.")).
Proof.
  apply (a_star_symmetric test_world (mkVector2 0 0) (mkVector2 2 2)).
  - split; [discriminate|]. split; [reflexivity|]. repeat constructor.
  - split; reflexivity.
  - split; reflexivity.
Defined.

(** X4. On a grid without walls, between any two cells inside it, [a_star]
    returns a path with exactly |x1 - x2| + |y1 - y2| edges. *)
Theorem a_star_unobstructed (w : World) (s e : Vector2) :
  grid w → unobstructed w → point_inside w s = true → point_inside w e = true →
  ∃ fuel0 : nat, ∀ fuel : nat, (fuel0 ≤ fuel)%nat →
    ∃ p, a_star fuel s e w = Some (Ok p) ∧ edges p = cartesian_distance s e.
Proof.
  intros Hg Hopen Hs He.
  assert (walk w s e (cartesian_distance s e)) as Hwalk.
  { assert (0 <= cartesian_distance s e) by (unfold cartesian_distance; lia).
    rewrite <- (Z2Nat.id (cartesian_distance s e)) by done.
    apply unobstructed_walk; [done..|lia]. }
  destruct (a_star_outcome w s e Hg) as [fuel0 Hout]. exists fuel0.
  intros fuel Hfuel.
  destruct (Hout fuel Hfuel) as [(st & l & Hrun & Hchain & _ & Hopt)|[_ Hno]];
    [|by destruct (Hno _ Hwalk)].
  eexists. split; [done|]. rewrite edges_reverse_cons.
  pose proof (walk_distance _ _ _ _ (chain_walk _ _ _ _ _ Hchain)).
  specialize (Hopt _ Hwalk). lia.
Qed.

Lemma a_star_unobstructed_witness :
  ∃ fuel0 : nat, ∀ fuel : nat, (fuel0 ≤ fuel)%nat →
    ∃ p, a_star fuel (mkVector2 0 0) (mkVector2 4 4) open_world = Some (Ok p)
         ∧ edges p = cartesian_distance (mkVector2 0 0) (mkVector2 4 4).
Proof.
  apply (a_star_unobstructed open_world (mkVector2 0 0) (mkVector2 4 4)).
  - split; [discriminate|]. split; [reflexivity|]. repeat constructor.
  - intros [px py] Hin. unfold point_inside in Hin. simpl in Hin.
    assert (px = 0 ∨ px = 1 ∨ px = 2 ∨ px = 3 ∨ px = 4) as Hx by lia.
    assert (py = 0 ∨ py = 1 ∨ py = 2 ∨ py = 3 ∨ py = 4) as Hy by lia.
    destruct Hx as [->|[->|[->|[->| ->]]]]; destruct Hy as [->|[->|[->|[->| ->]]]];
      reflexivity.
  - reflexivity.
  - reflexivity.
Defined.

(** X5. The heuristic is admissible: no list of single steps from [a] to [b]
    has fewer edges than [cartesian_distance a b]. *)
Theorem heuristic_admissible (l : list Vector2) (a b : Vector2) :
  head l = Some a → last l = Some b → stepwise l →
  cartesian_distance a b <= edges l.
Proof.
  revert a. induction l as [|c l IH]; intros a Hhd Hlast Hstep; [done|].
  assert (c = a) as -> by (cbn in Hhd; congruence). destruct l as [|c' l].
  - assert (b = a) as -> by (cbn in Hlast; congruence).
    unfold cartesian_distance, edges, len. cbn. lia.
  - rewrite stepwise_cons in Hstep. destruct Hstep as [Hac Hstep].
    rewrite last_cons_cons in Hlast. specialize (IH c' eq_refl Hlast Hstep).
    replace (edges (a :: c' :: l)) with (edges (c' :: l) + 1)
      by (unfold edges, len; cbn [length]; lia).
    unfold cartesian_distance in *. lia.
Qed.

Lemma heuristic_admissible_witness :
  cartesian_distance (mkVector2 0 0) (mkVector2 0 1)
  <= edges [mkVector2 0 0; mkVector2 1 0; mkVector2 1 1; mkVector2 0 1].
Proof.
  apply (heuristic_admissible
           [mkVector2 0 0; mkVector2 1 0; mkVector2 1 1; mkVector2 0 1]).
  - reflexivity.
  - reflexivity.
  - simpl. repeat split; reflexivity.
Defined.

(** X6. [cartesian_distance] is a metric on the cells: never negative, zero
    exactly between a cell and itself, symmetric, and it obeys the triangle
    inequality. *)
Theorem cartesian_distance_metric (p q r : Vector2) :
  0 <= cartesian_distance p q
  ∧ (cartesian_distance p q = 0 ↔ p = q)
  ∧ cartesian_distance p q = cartesian_distance q p
  ∧ cartesian_distance p r <= cartesian_distance p q + cartesian_distance q r.
Proof.
  unfold cartesian_distance. destruct p as [px py], q as [qx qy], r as [rx ry].
  cbn [x y]. split; [lia|]. split; [|split; lia]. split.
  - intros H. f_equal; lia.
  - intros [= -> ->]. lia.
Qed.

(** ** More on the priority queue *)

Lemma drain_sort {A : Type} (n : nat) :
  ∀ q : list (Z * A), length q = n → drain n q = (sort q).*2.
Proof.
  induction n as [|n IH]; intros q Hlen.
  { destruct q; [done|discriminate]. }
  assert (q ≠ []) as Hq by (intros ->; discriminate).
  destruct (pop_nonempty q Hq) as (e0 & rest & Hs & Hpop).
  cbn [drain]. rewrite Hpop, Hs. cbn [fmap list_fmap]. f_equal.
  pose proof (sort_sorted q) as Hsorted. rewrite Hs in Hsorted.
  apply Sorted_inv in Hsorted as [Hrest _].
  rewrite <- (sort_fixed rest Hrest) at 2. apply IH.
  pose proof (sort_perm q) as Hperm. rewrite Hs in Hperm.
  apply Permutation_length in Hperm. cbn in Hperm. lia.
Qed.

Lemma sort_insert_stable {A : Type} (k : Z) (e : Z * A) (l : list (Z * A)) :
  filter (λ e', e'.1 = k) (sort_insert e l) = filter (λ e', e'.1 = k) (e :: l).
Proof.
  induction l as [|e' l IH]; [done|]. cbn [sort_insert].
  destruct (e.1 <=? e'.1) eqn:Hle; [done|].
  rewrite (filter_cons _ e'), IH, !(filter_cons _ e), (filter_cons _ e').
  destruct (decide (e.1 = k)), (decide (e'.1 = k)); try done. lia.
Qed.

Lemma sort_stable {A : Type} (k : Z) (l : list (Z * A)) :
  filter (λ e, e.1 = k) (sort l) = filter (λ e, e.1 = k) l.
Proof.
  induction l as [|e l IH]; [done|]. cbn [sort].
  by rewrite sort_insert_stable, !filter_cons, IH.
Qed.

(** X7. Popping a queue until it is empty returns its data in the order of
    the stable sort of its entries by priority: priorities never decrease
    from one [pop] to the next, the entries of any one priority come out in
    the order they have in the list, and every entry comes out exactly once. *)
Theorem drain_sorted {A : Type} (q : list (Z * A)) :
  drain (length q) q = (sort q).*2
  ∧ Sorted by_priority (sort q)
  ∧ sort q ≡ₚ q
  ∧ ∀ k, filter (λ e, e.1 = k) (sort q) = filter (λ e, e.1 = k) q.
Proof.
  split; [by apply drain_sort|]. split; [apply sort_sorted|].
  split; [apply sort_perm|]. intros k. apply sort_stable.
Qed.

(** X8. A new entry does not overtake: when some queued entry has a priority
    that is not larger than the priority of the entry just put, [pop] returns
    the data it would have returned before the [put]. *)
Theorem put_does_not_overtake {A : Type} (q : list (Z * A)) (d : A) (p : Z) (e : Z * A) :
  e ∈ q → e.1 <= p → (pop (put q d p)).1 = (pop q).1.
Proof.
  intros He Hle.
  assert (q ≠ []) as Hq by (intros ->; by apply elem_of_nil in He).
  destruct (pop_min q Hq) as (f & n & rest & Hpop & Hperm & Hmin).
  destruct (pop_nonempty q Hq) as (e0 & rest0 & Hs & Hpop0).
  assert (put q d p ≠ []) as Hq' by (unfold put; by destruct q).
  destruct (pop_nonempty (put q d p) Hq') as (e1 & rest1 & Hs1 & Hpop1).
  rewrite Hpop1, Hpop0. cbn [fst]. f_equal.
  unfold put in Hs1. rewrite sort_snoc, Hs in Hs1. cbn [insert_last] in Hs1.
  assert (e0 = (f, n) ∧ rest0 = rest) as [-> ->].
  { rewrite Hpop in Hpop0. injection Hpop0 as Hn Hrest. subst rest0.
    split; [|done]. destruct e, e0 as [f0 n0]. cbn in Hn. subst n0. f_equal.
    apply Z.le_antisymm.
    - pose proof (sort_sorted q) as Hsorted. rewrite Hs in Hsorted.
      assert ((f, n) ∈ (f0, n) :: rest) as Hin.
      { rewrite <- Hs, sort_perm, <- Hperm. apply list_elem_of_here. }
      apply Sorted_extends in Hsorted; [|intros u v t; unfold by_priority; lia].
      apply elem_of_cons in Hin as [[= ->]|Hin]; [lia|].
      rewrite List.Forall_forall in Hsorted.
      apply list_elem_of_In, Hsorted in Hin. exact Hin.
    - apply (Hmin f0 n). rewrite <- (sort_perm q), Hs. apply list_elem_of_here. }
  destruct e as [pe de]. specialize (Hmin pe de He). cbn [fst] in *.
  destruct (p <? f) eqn:Hlt; [lia|]. by injection Hs1 as <- _.
Qed.

Lemma put_does_not_overtake_witness :
  (pop (put [(2, "a"%string); (1, "b"%string)] "c"%string 1)).1
  = (pop [(2, "a"%string); (1, "b"%string)]).1.
Proof.
  apply (put_does_not_overtake _ _ _ (1, "b"%string)).
  - apply list_elem_of_further, list_elem_of_here.
  - simpl. lia.
Defined.

(** X9. A new entry is popped next exactly when it is strictly more urgent
    than everything queued: if its priority is smaller than every queued
    priority, [pop] returns its data and leaves the old entries, sorted. *)
Theorem put_overtakes {A : Type} (q : list (Z * A)) (d : A) (p : Z) :
  (∀ e, e ∈ q → p < e.1) → pop (put q d p) = (Some d, sort q).
Proof.
  intros Hlt.
  assert (put q d p ≠ []) as Hq' by (unfold put; by destruct q).
  destruct (pop_nonempty (put q d p) Hq') as (e1 & rest1 & Hs1 & ->).
  unfold put in Hs1. rewrite sort_snoc in Hs1.
  destruct (sort q) as [|e0 rest] eqn:Hs; cbn [insert_last] in Hs1.
  - by injection Hs1 as <- <-.
  - assert (p < e0.1) as H0.
    { apply Hlt. rewrite <- (sort_perm q), Hs. apply list_elem_of_here. }
    cbn [fst] in Hs1. destruct (p <? e0.1) eqn:Hp; [|lia]. by injection Hs1 as <- <-.
Qed.

Lemma put_overtakes_witness :
  pop (put [(2, "a"%string); (1, "b"%string)] "c"%string 0)
  = (Some "c"%string, sort [(2, "a"%string); (1, "b"%string)]).
Proof.
  apply (put_overtakes [(2, "a"%string); (1, "b"%string)]).
  intros e He. apply elem_of_cons in He as [->|He]; [simpl; lia|].
  apply elem_of_cons in He as [->|He]; [simpl; lia|].
  by apply elem_of_nil in He.
Defined.

(** ** More on the world *)

Lemma getitem_range {A : Type} (l : list A) (i : Z) :
  - len l <= i < len l →
  ∃ a, getitem l i = Ok a ∧ l !! Z.to_nat (i `mod` len l) = Some a.
Proof.
  intros Hi. unfold getitem.
  assert ((if i <? 0 then i + len l else i) = i `mod` len l) as ->.
  { destruct (i <? 0) eqn:Hneg.
    - apply (Z.mod_unique_pos _ _ (-1)); lia.
    - symmetry. apply Z.mod_small. lia. }
  assert (0 <= i `mod` len l < len l) as Hm by (apply Z.mod_pos_bound; lia).
  destruct ((i `mod` len l <? 0) || (len l <=? i `mod` len l)) eqn:Hout; [lia|].
  destruct (l !! Z.to_nat (i `mod` len l)) as [a|] eqn:Hl; [by exists a|].
  apply lookup_ge_None in Hl. unfold len in *. lia.
Qed.

Lemma getitem_outside {A : Type} (l : list A) (i : Z) :
  i < - len l ∨ len l <= i → getitem l i = Raise IndexError.
Proof.
  intros Hi. unfold getitem.
  destruct (i <? 0) eqn:Hneg.
  - destruct ((i + len l <? 0) || (len l <=? i + len l)) eqn:Hout; [done|].
    unfold len in *. lia.
  - destruct ((i <? 0) || (len l <=? i)) eqn:Hout; [done|]. unfold len in *. lia.
Qed.

Lemma getitem_mod {A : Type} (l : list A) (i : Z) :
  - len l <= i < len l → getitem l i = getitem l (i `mod` len l).
Proof.
  intros Hi. destruct (getitem_range l i Hi) as (a & -> & Ha).
  assert (0 <= i `mod` len l < len l) as Hm by (apply Z.mod_pos_bound; lia).
  destruct (getitem_range l (i `mod` len l)) as (a' & -> & Ha'); [lia|].
  rewrite Z.mod_mod in Ha' by lia. congruence.
Qed.

Lemma grid_row (w : World) (j : Z) :
  grid w → - height w <= j < height w →
  ∃ row, getitem (data w) j = Ok row ∧ len row = width w.
Proof.
  intros (_ & Hh & Hrows) Hj. rewrite Hh in Hj.
  destruct (getitem_range (data w) j Hj) as (row & Hrow & Hl).
  exists row. split; [done|]. by eapply Forall_lookup_1 in Hrows.
Qed.

(** X10. A line of the file with fewer tokens than the first one (a blank
    last line, say) gives cells that [point_inside] accepts and on which
    [is_empty] raises [IndexError]. *)
Theorem short_row_IndexError (split : string → list string) (env : list string) (w : World) (j : nat)
    (line : string) (i : Z) :
  World_init split env = Ok w → env !! j = Some line →
  len (split line) <= i < width w →
  point_inside w (mkVector2 i (Z.of_nat j)) = true
  ∧ is_empty w (mkVector2 i (Z.of_nat j)) = Raise IndexError.
Proof.
  intros Hinit Hline Hi. unfold World_init in Hinit.
  destruct (getitem (split <$> env) 0) as [row0| |] eqn:Hrow0; [|done..].
  cbn [bind] in Hinit. injection Hinit as <-.
  pose proof (lookup_lt_Some _ _ _ Hline) as Hj.
  assert (0 <= len (split line)) by (unfold len; lia).
  cbn [width] in Hi. split.
  - unfold point_inside. cbn [x y width height]. unfold len at 2.
    rewrite length_fmap. lia.
  - unfold is_empty, World_getitem. cbn [x y data].
    destruct (getitem_inside (split <$> env) (Z.of_nat j)) as (row & -> & Hrow).
    { unfold len. rewrite length_fmap. lia. }
    rewrite Nat2Z.id, list_lookup_fmap, Hline in Hrow. injection Hrow as <-.
    cbn [bind]. rewrite getitem_outside by lia. done.
Qed.

Lemma short_row_IndexError_witness :
  point_inside (mkWorld [["0"; "0"]; []]%string 2 2) (mkVector2 1 (Z.of_nat 1)) = true
  ∧ is_empty (mkWorld [["0"; "0"]; []]%string 2 2) (mkVector2 1 (Z.of_nat 1))
    = Raise IndexError.
Proof.
  apply (short_row_IndexError split_ascii ["0 0"; ""]%string _ 1 ""%string 1).
  - reflexivity.
  - reflexivity.
  - split; [vm_compute; discriminate|reflexivity].
Defined.

(** X11. On a grid [is_empty] raises [IndexError] exactly for the cells with
    x outside [-width, width) or y outside [-height, height); for every other
    cell it returns a boolean. *)
Theorem is_empty_IndexError_iff (w : World) (p : Vector2) :
  grid w →
  (is_empty w p = Raise IndexError
   ↔ ¬ (- width w <= x p < width w ∧ - height w <= y p < height w))
  ∧ ((∃ b, is_empty w p = Ok b)
     ↔ (- width w <= x p < width w ∧ - height w <= y p < height w)).
Proof.
  intros Hg. unfold is_empty, World_getitem.
  destruct (decide (- height w <= y p < height w)) as [Hy|Hy].
  - destruct (grid_row w (y p) Hg Hy) as (row & -> & Hlen). cbn [bind].
    destruct (decide (- width w <= x p < width w)) as [Hx|Hx].
    + destruct (getitem_range row (x p)) as (tok & -> & _); [lia|]. cbn [bind].
      split; split; try done; [tauto|eauto].
    + rewrite getitem_outside by lia. cbn [bind].
      split; split; try done; [tauto|by intros [b ?]|tauto].
  - destruct Hg as (_ & Hh & _). rewrite getitem_outside by lia. cbn [bind].
    split; split; try done; [tauto|by intros [b ?]|tauto].
Qed.

Lemma is_empty_IndexError_iff_witness :
  (is_empty test_world (mkVector2 3 0) = Raise IndexError
   ↔ ¬ (- width test_world <= x (mkVector2 3 0) < width test_world
        ∧ - height test_world <= y (mkVector2 3 0) < height test_world))
  ∧ ((∃ b, is_empty test_world (mkVector2 3 0) = Ok b)
     ↔ (- width test_world <= x (mkVector2 3 0) < width test_world
        ∧ - height test_world <= y (mkVector2 3 0) < height test_world)).
Proof.
  apply (is_empty_IndexError_iff test_world (mkVector2 3 0)).
  split; [discriminate|]. split; [reflexivity|]. repeat constructor.
Defined.

(** X12. On a grid negative coordinates wrap around: for x in
    [-width, width) and y in [-height, height), [is_empty] answers for the
    cell (x, y) what it answers for the cell (x mod width, y mod height),
    which is inside the grid. *)
Theorem is_empty_wraps (w : World) (p : Vector2) :
  grid w → - width w <= x p < width w → - height w <= y p < height w →
  is_empty w p = is_empty w (mkVector2 (x p `mod` width w) (y p `mod` height w))
  ∧ point_inside w (mkVector2 (x p `mod` width w) (y p `mod` height w)) = true.
Proof.
  intros Hg Hx Hy. split.
  - unfold is_empty, World_getitem. cbn [x y].
    pose proof Hg as (Hne & Hh & Hrows).
    destruct (grid_row w (y p) Hg Hy) as (row & Hrow & Hlen).
    assert (getitem (data w) (y p `mod` height w) = Ok row) as Hrow'.
    { rewrite Hh. rewrite <- getitem_mod by lia. done. }
    rewrite Hrow, Hrow'. cbn [bind]. rewrite <- Hlen.
    by rewrite <- getitem_mod by lia.
  - unfold point_inside. cbn [x y].
    pose proof (Z.mod_pos_bound (x p) (width w)).
    pose proof (Z.mod_pos_bound (y p) (height w)). lia.
Qed.

Lemma is_empty_wraps_witness :
  is_empty test_world (mkVector2 (-1) 2)
  = is_empty test_world
      (mkVector2 (x (mkVector2 (-1) 2) `mod` width test_world)
         (y (mkVector2 (-1) 2) `mod` height test_world))
  ∧ point_inside test_world
      (mkVector2 (x (mkVector2 (-1) 2) `mod` width test_world)
         (y (mkVector2 (-1) 2) `mod` height test_world)) = true.
Proof.
  apply (is_empty_wraps test_world (mkVector2 (-1) 2)).
  - split; [discriminate|]. split; [reflexivity|]. repeat constructor.
  - simpl. lia.
  - simpl. lia.
Defined.

Lemma neighbours_Ok_edge (w : World) (p : Vector2) (ns : list Vector2) :
  neighbours w p = Ok ns → NoDup ns ∧ ∀ q, q ∈ ns ↔ edge w p q.
Proof.
  intros Hns. destruct (neighbours_any w p) as [(ns' & Hns' & Hnd & Hin)|Hns'];
    [|congruence].
  assert (ns' = ns) as -> by congruence. done.
Qed.

(** X13. Being a neighbour is symmetric between the cells the search may
    step on: for two cells that are inside the world and empty, one is among
    the neighbours of the other exactly when the converse holds. *)
Theorem neighbours_symmetric (w : World) (p q : Vector2) (np nq : list Vector2) :
  neighbours w p = Ok np → neighbours w q = Ok nq →
  passable w p → passable w q →
  (q ∈ np ↔ p ∈ nq).
Proof.
  intros Hnp Hnq Hp Hq.
  destruct (neighbours_Ok_edge w p np Hnp) as [_ Hep].
  destruct (neighbours_Ok_edge w q nq Hnq) as [_ Heq].
  rewrite Hep, Heq. unfold edge. rewrite !potential_adjacent.
  rewrite (cartesian_distance_sym q p). tauto.
Qed.

Lemma neighbours_symmetric_witness :
  mkVector2 1 1 ∈ [mkVector2 0 0; mkVector2 1 1]
  ↔ mkVector2 1 0 ∈ [mkVector2 1 2; mkVector2 1 0].
Proof.
  apply (neighbours_symmetric test_world (mkVector2 1 0) (mkVector2 1 1)).
  - reflexivity.
  - reflexivity.
  - split; reflexivity.
  - split; reflexivity.
Defined.

(** X14. In any world, when [neighbours] returns, it returns at most four
    cells, all different, each one step away from the point, inside the
    world and empty; the point itself is never among them. *)
Theorem neighbours_sound (w : World) (p : Vector2) (ns : list Vector2) :
  neighbours w p = Ok ns →
  (length ns ≤ 4)%nat ∧ NoDup ns ∧ (p ∉ ns)
  ∧ Forall (λ q, cartesian_distance p q = 1
                 ∧ point_inside w q = true ∧ is_empty w q = Ok true) ns.
Proof.
  intros Hns. destruct (neighbours_Ok_edge w p ns Hns) as [Hnd Hedge].
  split; [|split; [done|split]].
  - unfold neighbours in Hns.
    destruct (neighbours_loop_any w (potential p) []) as [(ns' & Hns' & ->)|Hns'];
      [|congruence].
    assert (ns = filter (passable w) (potential p)) as -> by (cbn in *; congruence).
    apply (length_filter (passable w) (potential p)).
  - intros Hp. apply Hedge in Hp as [Hp _]. by apply potential_ne in Hp.
  - apply Forall_forall. intros q Hq. apply Hedge in Hq as [Hq [Hin He]].
    split; [by apply potential_adjacent|done].
Qed.

Lemma neighbours_sound_witness :
  (length [mkVector2 1 2; mkVector2 1 0] ≤ 4)%nat
  ∧ NoDup [mkVector2 1 2; mkVector2 1 0]
  ∧ (mkVector2 1 1 ∉ [mkVector2 1 2; mkVector2 1 0])
  ∧ Forall (λ q, cartesian_distance (mkVector2 1 1) q = 1
                 ∧ point_inside test_world q = true ∧ is_empty test_world q = Ok true)
      [mkVector2 1 2; mkVector2 1 0].
Proof.
  apply (neighbours_sound test_world (mkVector2 1 1)). reflexivity.
Defined.

(** ** The picture of a route *)

Lemma append_assoc (s1 s2 s3 : string) : (s1 +:+ s2) +:+ s3 = s1 +:+ (s2 +:+ s3).
Proof. induction s1 as [|a s1 IH]; [done|]. by rewrite !append_String, IH. Qed.

Lemma append_nil_r (s : string) : s +:+ EmptyString = s.
Proof. induction s as [|a s IH]; [done|]. by rewrite append_String, IH. Qed.

Lemma string_of_list_ascii_app (l1 l2 : list ascii) :
  String.string_of_list_ascii (l1 ++ l2) = String.string_of_list_ascii l1 +:+ String.string_of_list_ascii l2.
Proof.
  induction l1 as [|a l1 IH]; [done|].
  cbn [app String.string_of_list_ascii]. by rewrite append_String, IH.
Qed.

Lemma graphical_row_chars (w : World) (path : list Vector2) (j : Z) (xs : list Z) :
  ∀ t t', graphical_row w path j t xs = Ok t' →
    ∃ cs, t' = t +:+ String.string_of_list_ascii cs
          ∧ Forall2 (λ i c, mark w path (mkVector2 i j) = Ok c) xs cs.
Proof.
  induction xs as [|i xs IH]; intros t t'; cbn [graphical_row].
  { intros [= <-]. exists []. by rewrite append_nil_r. }
  destruct (mark w path (mkVector2 i j)) as [c| |] eqn:Hc; cbn [bind]; [|done..].
  intros Hrest. destruct (IH _ _ Hrest) as (cs & -> & Hcs).
  exists (c :: cs). split; [by rewrite append_assoc|by constructor].
Qed.

Lemma graphical_rows_chars (w : World) (path : list Vector2) (ys : list Z) :
  ∀ t t', graphical_rows w path t ys = Ok t' →
    ∃ rows, t' = t +:+ lines_text rows
            ∧ Forall2 (λ j r, Forall2 (λ i c, mark w path (mkVector2 i j) = Ok c)
                                (seqZ 0 (width w)) r) ys rows.
Proof.
  induction ys as [|j ys IH]; intros t t'; cbn [graphical_rows].
  { intros [= <-]. exists []. by rewrite append_nil_r. }
  destruct (graphical_row w path j t (seqZ 0 (width w))) as [t1| |] eqn:Hrow;
    cbn [bind]; [|done..].
  destruct (graphical_row_chars w path j _ _ _ Hrow) as (cs & -> & Hcs).
  intros Hrest. destruct (IH _ _ Hrest) as (rows & -> & Hrows).
  exists (cs :: rows). split; [|by constructor].
  unfold lines_text. cbn [fmap list_fmap mjoin list_join].
  rewrite !string_of_list_ascii_app, !append_assoc. done.
Qed.

Lemma Forall2_seqZ {A : Type} (P : Z → A → Prop) (n : Z) (l : list A) :
  Forall2 P (seqZ 0 n) l →
  length l = Z.to_nat n ∧ ∀ (i : nat) a, l !! i = Some a → P (Z.of_nat i) a.
Proof.
  intros H. split.
  - apply Forall2_length in H. by rewrite length_seqZ in H.
  - intros i a Ha. destruct (Forall2_lookup_r _ _ _ _ _ H Ha) as (k & Hk & HP).
    apply lookup_seqZ in Hk as [-> _]. by rewrite Z.add_0_l in HP.
Qed.

Lemma getitem_first {A : Type} (a : A) (l : list A) : getitem (a :: l) 0 = Ok a.
Proof.
  destruct (getitem_inside (a :: l) 0) as (b & -> & Hb).
  { unfold len. cbn [length]. lia. }
  change (Some a = Some b) in Hb. by injection Hb as ->.
Qed.

Lemma getitem_final {A : Type} (l : list A) (a : A) :
  last l = Some a → getitem l (-1) = Ok a.
Proof.
  intros Hlast. apply last_Some in Hlast as [l' ->].
  destruct (getitem_range (l' ++ [a]) (-1)) as (b & -> & Hb).
  { unfold len. rewrite length_app. cbn. lia. }
  f_equal. unfold len in Hb. rewrite length_app in Hb. cbn [length] in Hb.
  replace (Z.to_nat ((-1) `mod` Z.of_nat (length l' + 1)%nat)) with (length l') in Hb.
  - rewrite lookup_app_r in Hb by (apply Nat.le_refl).
    rewrite Nat.sub_diag in Hb. by injection Hb.
  - rewrite <- (Z.mod_unique_pos (-1) _ (-1) (Z.of_nat (length l'))); lia.
Qed.

Lemma mark_total (w : World) (path : list Vector2) (c : Vector2) :
  grid w → path ≠ [] → point_inside w c = true → ∃ m, mark w path c = Ok m.
Proof.
  intros Hg Hpath Hin. unfold mark.
  destruct path as [|a path]; [done|]. rewrite getitem_first. cbn [bind].
  destruct (decide (c = a)); [eauto|].
  destruct (last (a :: path)) as [z|] eqn:Hlast.
  2: { by apply last_None in Hlast. }
  rewrite (getitem_final _ _ Hlast). cbn [bind].
  destruct (decide (c = z)); [eauto|].
  destruct (decide (c ∈ a :: path)); [eauto|].
  destruct (World_getitem_inside w c Hg Hin) as (row & tok & -> & _). cbn [bind].
  destruct (decide (tok = "1"%string)); eauto.
Qed.

Lemma graphical_row_total (w : World) (path : list Vector2) (j : Z) (xs : list Z) :
  (∀ i, i ∈ xs → ∃ m, mark w path (mkVector2 i j) = Ok m) →
  ∀ t, ∃ t', graphical_row w path j t xs = Ok t'.
Proof.
  induction xs as [|i xs IH]; intros Hxs t; cbn [graphical_row]; [eauto|].
  destruct (Hxs i) as [m ->]; [apply list_elem_of_here|]. cbn [bind].
  apply IH. intros i' Hi'. by apply Hxs, list_elem_of_further.
Qed.

Lemma graphical_rows_total (w : World) (path : list Vector2) (ys : list Z) :
  (∀ i j, i ∈ seqZ 0 (width w) → j ∈ ys → ∃ m, mark w path (mkVector2 i j) = Ok m) →
  ∀ t, ∃ t', graphical_rows w path t ys = Ok t'.
Proof.
  induction ys as [|j ys IH]; intros Hys t; cbn [graphical_rows]; [eauto|].
  destruct (graphical_row_total w path j (seqZ 0 (width w))) with (t := t) as [t1 ->].
  { intros i Hi. apply Hys; [done|apply list_elem_of_here]. }
  cbn [bind]. apply IH. intros i j' Hi Hj'. apply Hys; [done|].
  by apply list_elem_of_further.
Qed.

Lemma graphical_route_rows (w : World) (path : list Vector2) (t : string) :
  graphical_rows w path EmptyString (seqZ 0 (height w)) = Ok t →
  ∃ rows, t = lines_text rows
          ∧ length rows = Z.to_nat (height w)
          ∧ ∀ (j : nat) r, rows !! j = Some r →
              length r = Z.to_nat (width w)
              ∧ ∀ (i : nat) c, r !! i = Some c →
                  mark w path (mkVector2 (Z.of_nat i) (Z.of_nat j)) = Ok c.
Proof.
  intros Hrows.
  destruct (graphical_rows_chars w path _ _ _ Hrows) as (rows & -> & Hall).
  exists rows. split; [done|].
  apply Forall2_seqZ in Hall as [Hlen Hall]. split; [done|].
  intros j r Hr. specialize (Hall j r Hr). by apply Forall2_seqZ in Hall.
Qed.

(** X15. When [graphical_route] returns, it has printed the key and then one
    line for each row of the world, top row first, each with one character
    for each column, left column first: the character of the [if] chain for
    that cell.  Nothing else is printed. *)
Theorem graphical_route_lines (w : World) (path : list Vector2) (out : string) :
  graphical_route w path = (out, Ok tt) →
  ∃ rows, out = key_text +:+ lines_text rows
          ∧ length rows = Z.to_nat (height w)
          ∧ ∀ (j : nat) r, rows !! j = Some r →
              length r = Z.to_nat (width w)
              ∧ ∀ (i : nat) c, r !! i = Some c →
                  mark w path (mkVector2 (Z.of_nat i) (Z.of_nat j)) = Ok c.
Proof.
  unfold graphical_route.
  destruct (graphical_rows w path EmptyString (seqZ 0 (height w))) as [t| |] eqn:Hrows;
    [|done..].
  intros [= <-]. destruct (graphical_route_rows w path t Hrows) as (rows & -> & Hrest).
  by exists rows.
Qed.

Lemma graphical_route_lines_witness :
  ∃ rows,
    (key_text +:+ String "@" (String "$" (String newline EmptyString)))
    = key_text +:+ lines_text rows
    ∧ length rows = Z.to_nat (height (mkWorld [["0"; "0"]]%string 2 1))
    ∧ ∀ (j : nat) r, rows !! j = Some r →
        length r = Z.to_nat (width (mkWorld [["0"; "0"]]%string 2 1))
        ∧ ∀ (i : nat) c, r !! i = Some c →
            mark (mkWorld [["0"; "0"]]%string 2 1) [mkVector2 0 0; mkVector2 1 0]
              (mkVector2 (Z.of_nat i) (Z.of_nat j)) = Ok c.
Proof.
  apply (graphical_route_lines (mkWorld [["0"; "0"]]%string 2 1)
           [mkVector2 0 0; mkVector2 1 0]).
  reflexivity.
Defined.

(** X16. On a grid, for a path that [a_star] returned from a passable start,
    the picture follows its key: a cell inside the grid is drawn @ exactly
    when it is the start, $ when it is the end and not the start, o when it
    is another cell of the path, X exactly when it is marked as an obstacle,
    and . exactly when it is neither on the path nor an obstacle. *)
Theorem graphical_route_key (fuel : nat) (w : World) (s e : Vector2)
    (p : list Vector2) (c : Vector2) :
  grid w → passable w s → a_star fuel s e w = Some (Ok p) →
  point_inside w c = true →
  ∃ m, mark w p c = Ok m
       ∧ (m = "@"%char ↔ c = s)
       ∧ (m = "$"%char ↔ c = e ∧ c ≠ s)
       ∧ (m = "o"%char ↔ c ∈ p ∧ c ≠ s ∧ c ≠ e)
       ∧ (m = "X"%char ↔ obstacle w c)
       ∧ (m = "."%char ↔ (c ∉ p) ∧ ¬ obstacle w c).
Proof.
  intros Hg Hs Hrun Hin.
  destruct (a_star_returned fuel w s e p Hrun) as (st & l & -> & Hchain & Hnd & _).
  assert (head (reverse (e :: l)) = Some s) as Hhd.
  { rewrite head_reverse. by eapply chain_last. }
  assert (last (reverse (e :: l)) = Some e) as Hlast by (by rewrite last_reverse).
  assert (∀ a, a ∈ reverse (e :: l) → ¬ obstacle w a) as Hfree.
  { intros a Ha Hob. rewrite elem_of_reverse in Ha.
    assert (passable w a) as [_ Hemp].
    { destruct (chain_passable_or_start w s st e l Hchain a Ha) as [->|]; done. }
    unfold is_empty, obstacle in *. rewrite Hob in Hemp. by cbn in Hemp. }
  assert (s ∈ reverse (e :: l)) as Hsin by (by apply head_Some_elem_of).
  assert (e ∈ reverse (e :: l)) as Hein by (by apply last_Some_elem_of).
  unfold mark. destruct (reverse (e :: l)) as [|a path] eqn:Hp; [done|].
  injection Hhd as ->. rewrite getitem_first. cbn [bind].
  rewrite (getitem_final _ _ Hlast). cbn [bind].
  assert (∀ m : ascii,
    (m = "@"%char ↔ c = s) → (m = "$"%char ↔ c = e ∧ c ≠ s) →
    (m = "o"%char ↔ c ∈ s :: path ∧ c ≠ s ∧ c ≠ e) →
    (m = "X"%char ↔ obstacle w c) →
    (m = "."%char ↔ (c ∉ s :: path) ∧ ¬ obstacle w c) →
    ∃ m', Ok m = Ok m' ∧ (m' = "@"%char ↔ c = s) ∧ (m' = "$"%char ↔ c = e ∧ c ≠ s)
          ∧ (m' = "o"%char ↔ c ∈ s :: path ∧ c ≠ s ∧ c ≠ e)
          ∧ (m' = "X"%char ↔ obstacle w c)
          ∧ (m' = "."%char ↔ (c ∉ s :: path) ∧ ¬ obstacle w c)) as Hpack.
  { intros m H1 H2 H3 H4 H5. by exists m. }
  destruct (decide (c = s)) as [->|Hcs].
  { apply Hpack; (split; intros Hm); try discriminate; try done.
    - by destruct Hm as [_ []].
    - by destruct Hm as (_ & [] & _).
    - by destruct (Hfree s Hsin).
    - by destruct Hm as [[] _]. }
  destruct (decide (c = e)) as [->|Hce].
  { apply Hpack; (split; intros Hm); try discriminate; try done.
    - by destruct Hm as (_ & _ & []).
    - by destruct (Hfree e Hein).
    - by destruct Hm as [[] _]. }
  destruct (decide (c ∈ s :: path)) as [Hc|Hc].
  { apply Hpack; (split; intros Hm); try discriminate; try done.
    - by destruct Hm as [-> _].
    - by destruct (Hfree c Hc).
    - by destruct Hm as [[] _]. }
  destruct (World_getitem_inside w c Hg Hin) as (row & tok & Htok & _).
  rewrite Htok. cbn [bind].
  assert (obstacle w c ↔ tok = "1"%string) as Hob.
  { unfold obstacle. rewrite Htok. split; [by intros [= ->]|by intros ->]. }
  destruct (decide (tok = "1"%string)) as [Htok1|Htok1].
  - apply Hpack; (split; intros Hm); try discriminate; try done.
    + by destruct Hm as [-> _].
    + by destruct Hm as [? _].
    + by apply Hob.
    + destruct Hm as [_ Hm]. destruct Hm. by apply Hob.
  - apply Hpack; (split; intros Hm); try discriminate; try done.
    + by destruct Hm as [-> _].
    + by destruct Hm as [? _].
    + by apply Hob in Hm.
    + split; [done|]. by rewrite Hob.
Qed.

Lemma graphical_route_key_witness :
  ∃ m, mark test_world
         [mkVector2 0 0; mkVector2 1 0; mkVector2 1 1; mkVector2 1 2; mkVector2 2 2]
         (mkVector2 2 1) = Ok m
       ∧ (m = "@"%char ↔ mkVector2 2 1 = mkVector2 0 0)
       ∧ (m = "$"%char ↔ mkVector2 2 1 = mkVector2 2 2 ∧ mkVector2 2 1 ≠ mkVector2 0 0)
       ∧ (m = "o"%char
          ↔ mkVector2 2 1
              ∈ [mkVector2 0 0; mkVector2 1 0; mkVector2 1 1; mkVector2 1 2; mkVector2 2 2]
            ∧ mkVector2 2 1 ≠ mkVector2 0 0 ∧ mkVector2 2 1 ≠ mkVector2 2 2)
       ∧ (m = "X"%char ↔ obstacle test_world (mkVector2 2 1))
       ∧ (m = "."%char
          ↔ (mkVector2 2 1
               ∉ [mkVector2 0 0; mkVector2 1 0; mkVector2 1 1; mkVector2 1 2; mkVector2 2 2])
            ∧ ¬ obstacle test_world (mkVector2 2 1)).
Proof.
  apply (graphical_route_key 20 test_world (mkVector2 0 0) (mkVector2 2 2)).
  - split; [discriminate|]. split; [reflexivity|]. repeat constructor.
  - split; reflexivity.
  - vm_compute. reflexivity.
  - reflexivity.
Defined.

Lemma graphical_route_grid (w : World) (path : list Vector2) :
  grid w → path ≠ [] →
  ∃ rows, graphical_route w path = (key_text +:+ lines_text rows, Ok tt).
Proof.
  intros Hg Hpath. unfold graphical_route.
  destruct (graphical_rows_total w path (seqZ 0 (height w))) with (t := EmptyString)
    as [t Ht].
  { intros i j Hi Hj. apply mark_total; [done..|].
    apply elem_of_seqZ in Hi, Hj. unfold point_inside. cbn [x y]. lia. }
  rewrite Ht. destruct (graphical_route_rows w path t Ht) as (rows & -> & _).
  by exists rows.
Qed.

(** X17. On a grid [graphical_route] draws any path that is not empty: no
    exception escapes, and the key and the whole picture are printed. *)
Theorem graphical_route_total (w : World) (path : list Vector2) :
  grid w → path ≠ [] →
  ∃ rows, graphical_route w path = (key_text +:+ lines_text rows, Ok tt).
Proof. apply graphical_route_grid. Qed.

Lemma graphical_route_total_witness :
  ∃ rows, graphical_route test_world [mkVector2 0 0]
          = (key_text +:+ lines_text rows, Ok tt).
Proof.
  apply (graphical_route_total test_world [mkVector2 0 0]).
  - split; [discriminate|]. split; [reflexivity|]. repeat constructor.
  - discriminate.
Defined.

(** X18. For an empty path, in a world that has at least one cell,
    [graphical_route] prints the key and then fails with [IndexError] on
    [the_path[0]], before any line of the picture is out. *)
Theorem graphical_route_empty_path (w : World) :
  0 < width w → 0 < height w →
  graphical_route w [] = (key_text, Raise IndexError).
Proof.
  intros Hw Hh. unfold graphical_route.
  rewrite (seqZ_cons 0 (height w)) by done. cbn [graphical_rows].
  rewrite (seqZ_cons 0 (width w)) by done. cbn [graphical_row]. done.
Qed.

Lemma graphical_route_empty_path_witness :
  graphical_route test_world [] = (key_text, Raise IndexError).
Proof.
  apply (graphical_route_empty_path test_world); reflexivity.
Defined.

(** ** The main program *)

Lemma World_init_not_exit (split : string → list string) (env : list string) (msg : string) :
  World_init split env ≠ SysExit msg.
Proof.
  unfold World_init. destruct (getitem (split <$> env) 0) eqn:H; cbn [bind]; [done..|].
  by apply getitem_not_exit in H.
Qed.

Lemma World_init_raise (split : string → list string) (env : list string) (ex : exn) :
  World_init split env = Raise ex → ex = IndexError.
Proof.
  unfold World_init. destruct (getitem (split <$> env) 0) eqn:H; cbn [bind]; [done| |done].
  intros [= <-]. by apply getitem_raise in H.
Qed.

(** The ways through the script, for a file that exists. *)
Lemma main_cases (split : string → list string) (int : string → option Z) (fuel : nat) (g : bool) (env : list string)
    (ox oy dx dy : Z) (res : string * ending) :
  main split int fuel g (Some env) ox oy dx dy = Some res →
  res = (EmptyString, Failed IndexError)
  ∨ res = (EmptyString, FailedValueError)
  ∨ (sized split int env
     ∧ ∃ w, World_init split (drop 1 env) = Ok w
       ∧ (res = says "Starting coordinates are out of world."
          ∧ point_inside w (mkVector2 ox oy) = false
          ∨ res = says "Ending coordinates are out of the world."
            ∧ point_inside w (mkVector2 ox oy) = true
            ∧ point_inside w (mkVector2 dx dy) = false
          ∨ res = says "Starting point is on a non-empty space."
            ∧ point_inside w (mkVector2 ox oy) = true
            ∧ point_inside w (mkVector2 dx dy) = true
            ∧ is_empty w (mkVector2 ox oy) = Ok false
          ∨ res = says "Ending point is on a non-empty space."
            ∧ passable w (mkVector2 ox oy)
            ∧ point_inside w (mkVector2 dx dy) = true
            ∧ is_empty w (mkVector2 dx dy) = Ok false
          ∨ passable w (mkVector2 ox oy) ∧ passable w (mkVector2 dx dy)
            ∧ ∃ r, a_star fuel (mkVector2 ox oy) (mkVector2 dx dy) w = Some r
                   ∧ step r (λ path, Some (present g w path)) = Some res)).
Proof.
  unfold main.
  destruct (getitem env 0) as [line| |] eqn:Hline; cbn [step].
  2: { intros [= <-]. left. by rewrite (getitem_raise _ _ _ Hline). }
  2: { by apply getitem_not_exit in Hline. }
  destruct (getitem (split line) 0) as [size0| |] eqn:H0; cbn [step].
  2: { intros [= <-]. left. by rewrite (getitem_raise _ _ _ H0). }
  2: { by apply getitem_not_exit in H0. }
  destruct (int size0) as [n0|] eqn:Hn0; [|intros [= <-]; by right; left].
  destruct (getitem (split line) 1) as [size1| |] eqn:H1; cbn [step].
  2: { intros [= <-]. left. by rewrite (getitem_raise _ _ _ H1). }
  2: { by apply getitem_not_exit in H1. }
  destruct (int size1) as [n1|] eqn:Hn1; [|intros [= <-]; by right; left].
  assert (sized split int env) as Hsized.
  { destruct env as [|line' env]; [done|]. rewrite getitem_first in Hline.
    injection Hline as ->.
    destruct (split line) as [|t0 [|t1 rest]] eqn:Hsplit; [done| |].
    - rewrite getitem_outside in H1; [done|]. unfold len. cbn. lia.
    - rewrite getitem_first in H0. injection H0 as ->.
      destruct (getitem_inside (size0 :: t1 :: rest) 1) as (b & Hb & Hb').
      { unfold len. cbn [length]. lia. }
      rewrite Hb in H1. injection H1 as ->. change (Some t1 = Some size1) in Hb'.
      injection Hb' as ->. exists line, size0, size1, rest.
      split; [done|]. split; [done|]. split; eauto. }
  destruct (World_init split (drop 1 env)) as [w| |] eqn:Hw; cbn [step].
  2: { intros [= <-]. left. by rewrite (World_init_raise _ _ _ Hw). }
  2: { by apply World_init_not_exit in Hw. }
  intros Hres.
  destruct (point_inside w (mkVector2 ox oy)) eqn:Hs; cbn [negb] in Hres.
  2: { injection Hres as <-. right. right. split; [done|]. exists w. split; [done|].
       by left. }
  destruct (point_inside w (mkVector2 dx dy)) eqn:He; cbn [negb] in Hres.
  2: { injection Hres as <-. right. right. split; [done|]. exists w. split; [done|].
       right. by left. }
  destruct (is_empty w (mkVector2 ox oy)) as [[|]| |] eqn:Hse; cbn [step negb] in Hres.
  3: { injection Hres as <-. left. by rewrite (is_empty_raise _ _ _ Hse). }
  3: { by apply is_empty_not_exit in Hse. }
  2: { injection Hres as <-. right. right. split; [done|]. exists w. split; [done|].
       right. right. by left. }
  destruct (is_empty w (mkVector2 dx dy)) as [[|]| |] eqn:Hee; cbn [step negb] in Hres.
  3: { injection Hres as <-. left. by rewrite (is_empty_raise _ _ _ Hee). }
  3: { by apply is_empty_not_exit in Hee. }
  2: { injection Hres as <-. right. right. split; [done|]. exists w. split; [done|].
       right. right. right. by left. }
  right. right. split; [done|]. exists w. split; [done|].
  do 4 right. split; [done|]. split; [done|].
  destruct (a_star fuel (mkVector2 ox oy) (mkVector2 dx dy) w) as [r|]; [|done].
  by exists r.
Qed.

Lemma a_star_exit_message (fuel : nat) (s e : Vector2) (w : World) (msg : string) :
  a_star fuel s e w = Some (SysExit msg) → msg = "No path could be found."%string.
Proof.
  intros Hrun. destruct (a_star_outcome_any w s e) as [fuel0 Hout].
  apply (a_star_mono _ (fuel `max` fuel0)) in Hrun; [|lia].
  destruct (Hout (fuel `max` fuel0)%nat ltac:(lia))
    as [(st & l & Hrun' & _)|[[Hrun' _]|Hrun']]; congruence.
Qed.

Lemma a_star_exit_no_route (fuel : nat) (s e : Vector2) (w : World) (msg : string) :
  a_star fuel s e w = Some (SysExit msg) → ¬ ∃ l, route w s e l.
Proof.
  intros Hrun [l Hl]. destruct (a_star_outcome_any w s e) as [fuel0 Hout].
  apply (a_star_mono _ (fuel `max` fuel0)) in Hrun; [|lia].
  destruct (Hout (fuel `max` fuel0)%nat ltac:(lia))
    as [(st & l' & Hrun' & _)|[[_ Hno]|Hrun']]; [congruence| |congruence].
  by destruct (Hno _ (route_walk _ _ _ _ Hl)).
Qed.

Lemma mark_not_exit (w : World) (path : list Vector2) (c : Vector2) (msg : string) :
  mark w path c ≠ SysExit msg.
Proof.
  unfold mark.
  destruct (getitem path 0) as [a| |] eqn:H0; cbn [bind]; [|done|].
  2: { by apply getitem_not_exit in H0. }
  destruct (decide (c = a)); [done|].
  destruct (getitem path (-1)) as [z| |] eqn:H1; cbn [bind]; [|done|].
  2: { by apply getitem_not_exit in H1. }
  destruct (decide (c = z)); [done|]. destruct (decide (c ∈ path)); [done|].
  unfold World_getitem.
  destruct (getitem (data w) (y c)) as [row| |] eqn:Hrow; cbn [bind]; [|done|].
  2: { by apply getitem_not_exit in Hrow. }
  destruct (getitem row (x c)) as [tok| |] eqn:Htok; cbn [bind]; [|done|].
  2: { by apply getitem_not_exit in Htok. }
  by destruct (decide (tok = "1"%string)).
Qed.

Lemma graphical_row_not_exit (w : World) (path : list Vector2) (j : Z) (xs : list Z) :
  ∀ t msg, graphical_row w path j t xs ≠ SysExit msg.
Proof.
  induction xs as [|i xs IH]; intros t msg; cbn [graphical_row]; [done|].
  destruct (mark w path (mkVector2 i j)) as [c| |] eqn:Hc; cbn [bind]; [apply IH|done|].
  by apply mark_not_exit in Hc.
Qed.

Lemma graphical_rows_not_exit (w : World) (path : list Vector2) (ys : list Z) :
  ∀ t msg, graphical_rows w path t ys ≠ SysExit msg.
Proof.
  induction ys as [|j ys IH]; intros t msg; cbn [graphical_rows]; [done|].
  destruct (graphical_row w path j t (seqZ 0 (width w))) as [t1| |] eqn:Hrow;
    cbn [bind]; [apply IH|done|].
  by apply graphical_row_not_exit in Hrow.
Qed.

Lemma present_not_exited (g : bool) (w : World) (path : list Vector2) (out : string) :
  present g w path ≠ (out, Exited).
Proof.
  unfold present, graphical_route. destruct g; [|done].
  destruct (graphical_rows w path EmptyString (seqZ 0 (height w))) as [t| |] eqn:Hrows;
    [done..|].
  by apply graphical_rows_not_exit in Hrows.
Qed.

Lemma says_inj (m1 m2 : string) : says m1 = says m2 → m1 = m2.
Proof.
  unfold says. intros [= H]. revert m2 H.
  induction m1 as [|a m1 IH]; intros [|b m2]; cbn; intros H; try done.
  - by destruct m2.
  - by destruct m1.
  - injection H as -> H. f_equal. by apply IH.
Qed.

(** X19. When the program, run without graphics, reaches its end, what it
    printed are the directions of a shortest route: the world could be built
    from the file, start and end are inside it and empty, and taking the
    letters one step at a time from the start gives a route to the end over
    passable cells that no route undercuts. *)
Theorem main_directions (split : string → list string) (int : string → option Z) (fuel : nat) (env : list string)
    (ox oy dx dy : Z) (out : string) :
  main split int fuel false (Some env) ox oy dx dy = Some (out, Finished) →
  ∃ w path,
    World_init split (drop 1 env) = Ok w
    ∧ mkVector2 ox oy :: replay (mkVector2 ox oy) out = path
    ∧ route w (mkVector2 ox oy) (mkVector2 dx dy) path
    ∧ shortest w (mkVector2 ox oy) (mkVector2 dx dy) (edges path).
Proof.
  intros Hmain. apply main_cases in Hmain as [[=]|[[=]|(_ & w & Hw & Hcases)]].
  destruct Hcases as [[[=] _]|[[[=] _]|[[[=] _]|[[[=] _]|(Hs & He & r & Hrun & Hres)]]]].
  destruct r as [path|ex|msg]; cbn [step] in Hres; [|done..].
  unfold present in Hres. injection Hres as <-.
  destruct (a_star_path_facts fuel w _ _ path Hrun) as (Hhd & Hlast & Hnd & Htail & Hmin).
  destruct (a_star_stepwise fuel _ _ w path Hrun) as [Hstep _].
  destruct path as [|first rest]; [done|]. injection Hhd as ->.
  assert (route w (mkVector2 ox oy) (mkVector2 dx dy) (mkVector2 ox oy :: rest)) as Hroute.
  { split; [done|]. split; [done|]. split; [by constructor|done]. }
  exists w, (mkVector2 ox oy :: rest). split; [done|]. split; [|split; [done|]].
  - unfold encode. cbn [encode_loop]. rewrite replay_encode_loop by done.
    cbn. by rewrite app_nil_r.
  - split; [by eexists|]. intros l (Hl1 & Hl2 & Hl3 & Hl4). apply Hmin; try done.
    destruct l; [done|]. by apply Forall_cons in Hl3 as [_ ?].
Qed.

Lemma main_directions_witness :
  ∃ w path,
    World_init split_ascii (drop 1 ["3 3"; "0 0 1"; "1 0 1"; "0 0 0"]%string) = Ok w
    ∧ mkVector2 0 0 :: replay (mkVector2 0 0) ("R D D R" +:+ String newline EmptyString)
      = path
    ∧ route w (mkVector2 0 0) (mkVector2 2 2) path
    ∧ shortest w (mkVector2 0 0) (mkVector2 2 2) (edges path).
Proof.
  apply (main_directions split_ascii (λ _, Some 0) 20).
  vm_compute. reflexivity.
Defined.

(** X20. When the program leaves through [err], that is with the ending
    [Exited], what it has printed is exactly one line, and that line is one
    of the six messages of [err]: nothing of the key, the picture or the
    directions is out before.  (A run that dies with an uncaught exception
    ends as [Failed] or [FailedValueError], not as [Exited].) *)
Theorem main_exit_messages (split : string → list string) (int : string → option Z) (fuel : nat) (g : bool)
    (env_file : option (list string)) (ox oy dx dy : Z) (out : string) :
  main split int fuel g env_file ox oy dx dy = Some (out, Exited) →
  ∃ msg, msg ∈ messages ∧ out = msg +:+ String newline EmptyString.
Proof.
  intros Hmain. destruct env_file as [env|].
  2: { injection Hmain as <-. eexists. split; [|done]. unfold messages.
       apply list_elem_of_here. }
  apply main_cases in Hmain as [[=]|[[=]|(_ & w & Hw & Hcases)]].
  unfold messages.
  destruct Hcases as [[[= ->] _]|[[[= ->] _]|[[[= ->] _]|[[[= ->] _]|(Hs & He & r & Hrun & Hres)]]]].
  - eexists. split; [|done]. rewrite !elem_of_cons. auto 10.
  - eexists. split; [|done]. rewrite !elem_of_cons. auto 10.
  - eexists. split; [|done]. rewrite !elem_of_cons. auto 10.
  - eexists. split; [|done]. rewrite !elem_of_cons. auto 10.
  - destruct r as [path|ex|msg]; cbn [step] in Hres; [|done|].
    + injection Hres as Hres. by apply present_not_exited in Hres.
    + apply a_star_exit_message in Hrun as ->. injection Hres as <-.
      eexists. split; [|done]. rewrite !elem_of_cons. auto 10.
Qed.

Lemma main_exit_messages_witness :
  ∃ msg, msg ∈ messages
         ∧ ("Starting point is on a non-empty space." +:+ String newline EmptyString)
           = msg +:+ String newline EmptyString.
Proof.
  apply (main_exit_messages split_ascii (λ _, Some 0) 20 false
           (Some ["3 3"; "0 0 1"; "1 0 1"; "0 0 0"]%string) 0 1 2 2).
  vm_compute. reflexivity.
Defined.

(** X21. The program says that no path could be found only when that is so:
    the world was built, start and end are inside it and empty, and no
    4-directional passable route joins them. *)
Theorem main_no_path (split : string → list string) (int : string → option Z) (fuel : nat) (g : bool)
    (env : list string) (ox oy dx dy : Z) :
  main split int fuel g (Some env) ox oy dx dy = Some (says "No path could be found.") →
  ∃ w, World_init split (drop 1 env) = Ok w
       ∧ passable w (mkVector2 ox oy) ∧ passable w (mkVector2 dx dy)
       ∧ ¬ ∃ l, route w (mkVector2 ox oy) (mkVector2 dx dy) l.
Proof.
  intros Hmain. apply main_cases in Hmain as [[=]|[[=]|(_ & w & Hw & Hcases)]].
  exists w. split; [done|].
  destruct Hcases as [[H _]|[[H _]|[[H _]|[[H _]|(Hs & He & r & Hrun & Hres)]]]];
    try (by apply says_inj in H).
  split; [done|]. split; [done|].
  destruct r as [path|ex|msg]; cbn [step] in Hres; [|done|].
  - injection Hres as Hres. by apply present_not_exited in Hres.
  - by eapply a_star_exit_no_route.
Qed.

Lemma main_no_path_witness :
  ∃ w, World_init split_ascii (drop 1 ["3 3"; "0 1 0"; "0 1 0"; "0 1 0"]%string) = Ok w
       ∧ passable w (mkVector2 0 0) ∧ passable w (mkVector2 2 2)
       ∧ ¬ ∃ l, route w (mkVector2 0 0) (mkVector2 2 2) l.
Proof.
  apply (main_no_path split_ascii (λ _, Some 0) 20 true).
  vm_compute. reflexivity.
Defined.

Lemma sized_prelude (split : string → list string) (int : string → option Z) (env : list string) :
  sized split int env →
  ∃ line size0 size1 n0 n1,
    getitem env 0 = Ok line ∧ getitem (split line) 0 = Ok size0 ∧ int size0 = Some n0
    ∧ getitem (split line) 1 = Ok size1 ∧ int size1 = Some n1.
Proof.
  intros (line & size0 & size1 & rest & Hhd & Hsplit & [n0 Hn0] & [n1 Hn1]).
  destruct env as [|line' env]; [done|]. injection Hhd as ->.
  exists line, size0, size1, n0, n1. rewrite Hsplit, !getitem_first.
  split; [done|]. split; [done|]. split; [done|]. split; [|done].
  destruct (getitem_inside (size0 :: size1 :: rest) 1) as (b & -> & Hb).
  { unfold len. cbn [length]. lia. }
  change (Some size1 = Some b) in Hb. by injection Hb as <-.
Qed.

(** X22. The two numbers on the first line of the file are read and then
    ignored: two files whose first lines both start with two numbers and
    whose other lines are the same give the same run. *)
Theorem main_ignores_size (split : string → list string) (int : string → option Z) (fuel : nat) (g : bool)
    (env1 env2 : list string) (ox oy dx dy : Z) :
  sized split int env1 → sized split int env2 → drop 1 env1 = drop 1 env2 →
  main split int fuel g (Some env1) ox oy dx dy = main split int fuel g (Some env2) ox oy dx dy.
Proof.
  intros H1 H2 Hdrop.
  destruct (sized_prelude split int env1 H1) as (l1 & a1 & b1 & m1 & n1 & Hl1 & Ha1 & Hm1 & Hb1 & Hn1).
  destruct (sized_prelude split int env2 H2) as (l2 & a2 & b2 & m2 & n2 & Hl2 & Ha2 & Hm2 & Hb2 & Hn2).
  unfold main. rewrite Hl1, Hl2. cbn [step].
  rewrite Ha1, Ha2. cbn [step]. rewrite Hm1, Hm2, Hb1, Hb2. cbn [step].
  rewrite Hn1, Hn2, Hdrop. done.
Qed.

Lemma main_ignores_size_witness :
  main split_ascii (λ _, Some 0) 20 false (Some ["3 3"; "0 0"; "0 0"]%string) 0 0 1 1
  = main split_ascii (λ _, Some 0) 20 false (Some ["7 9 and more"; "0 0"; "0 0"]%string) 0 0 1 1.
Proof.
  apply main_ignores_size.
  - exists "3 3"%string, "3"%string, "3"%string, []. repeat split; eauto.
  - exists "7 9 and more"%string, "7"%string, "9"%string, ["and"; "more"]%string.
    repeat split; eauto.
  - reflexivity.
Defined.

(** X23. A file with fewer than two lines never gives a route: the program
    prints nothing and dies with an uncaught [IndexError] (no first line, too
    few tokens on it, or no row to take the width from) or [ValueError]. *)
Theorem main_short_file (split : string → list string) (int : string → option Z) (fuel : nat) (g : bool)
    (env : list string) (ox oy dx dy : Z) :
  (length env ≤ 1)%nat →
  main split int fuel g (Some env) ox oy dx dy = Some (EmptyString, Failed IndexError)
  ∨ main split int fuel g (Some env) ox oy dx dy = Some (EmptyString, FailedValueError).
Proof.
  intros Hlen. unfold main.
  destruct env as [|line [|line' env]]; [by left| |cbn in Hlen; lia].
  rewrite getitem_first. cbn [step].
  destruct (getitem (split line) 0) as [size0| |] eqn:H0; cbn [step].
  2: { left. by rewrite (getitem_raise _ _ _ H0). }
  2: { by apply getitem_not_exit in H0. }
  destruct (int size0); [|by right].
  destruct (getitem (split line) 1) as [size1| |] eqn:H1; cbn [step].
  2: { left. by rewrite (getitem_raise _ _ _ H1). }
  2: { by apply getitem_not_exit in H1. }
  destruct (int size1); [|by right]. by left.
Qed.

Lemma main_short_file_witness :
  main split_ascii (λ _, Some 0) 20 false (Some ["3 3"%string]) 0 0 1 1
  = Some (EmptyString, Failed IndexError)
  ∨ main split_ascii (λ _, Some 0) 20 false (Some ["3 3"%string]) 0 0 1 1
    = Some (EmptyString, FailedValueError).
Proof.
  apply main_short_file. simpl. lia.
Defined.

(** X24. The program terminates on every input: whatever the file, the
    coordinates and the mode, the search stops and the run ends, normally,
    through [err] or with an exception. *)
Theorem main_terminates (split : string → list string) (int : string → option Z) (g : bool)
    (env_file : option (list string)) (ox oy dx dy : Z) :
  ∃ fuel0 : nat, ∀ fuel : nat, (fuel0 ≤ fuel)%nat →
    ∃ res, main split int fuel g env_file ox oy dx dy = Some res.
Proof.
  unfold main. destruct env_file as [env|]; [|exists 0%nat; eauto].
  destruct (getitem env 0) as [line| |]; cbn [step]; [|exists 0%nat; eauto..].
  destruct (getitem (split line) 0) as [size0| |]; cbn [step]; [|exists 0%nat; eauto..].
  destruct (int size0); [|exists 0%nat; eauto].
  destruct (getitem (split line) 1) as [size1| |]; cbn [step]; [|exists 0%nat; eauto..].
  destruct (int size1); [|exists 0%nat; eauto].
  destruct (World_init split (drop 1 env)) as [w| |]; cbn [step]; [|exists 0%nat; eauto..].
  destruct (negb (point_inside w (mkVector2 ox oy))); [exists 0%nat; eauto|].
  destruct (negb (point_inside w (mkVector2 dx dy))); [exists 0%nat; eauto|].
  destruct (is_empty w (mkVector2 ox oy)) as [[|]| |]; cbn [step negb];
    [|exists 0%nat; eauto..].
  destruct (is_empty w (mkVector2 dx dy)) as [[|]| |]; cbn [step negb];
    [|exists 0%nat; eauto..].
  destruct (a_star_outcome_any w (mkVector2 ox oy) (mkVector2 dx dy)) as [fuel0 Hout].
  exists fuel0. intros fuel Hfuel.
  destruct (Hout fuel Hfuel) as [(st & l & -> & _)|[[-> _]| ->]]; cbn [step]; eauto.
Qed.

Lemma World_init_rectangular (split : string → list string) (env : list string) (n : Z) :
  env ≠ [] → Forall (λ line, len (split line) = n) env →
  ∃ w, World_init split env = Ok w ∧ grid w.
Proof.
  intros Hne Hall. destruct env as [|line env]; [done|].
  unfold World_init. cbn [fmap list_fmap]. rewrite getitem_first. cbn [bind].
  eexists. split; [done|]. split; [done|]. split; [done|]. cbn [data width].
  apply Forall_cons in Hall as [Hline Hall]. rewrite Hline.
  constructor; [done|]. by apply Forall_fmap.
Qed.

(** X25. On a well-formed file (a first line that starts with two numbers,
    then at least one row, all rows with equally many tokens) the program
    never dies with an exception: it terminates either normally or through
    [err], in both modes and for any coordinates. *)
Theorem main_well_formed (split : string → list string) (int : string → option Z) (g : bool) (env : list string)
    (ox oy dx dy : Z) :
  sized split int env → rectangular split env → (2 ≤ length env)%nat →
  ∃ fuel0 : nat, ∀ fuel : nat, (fuel0 ≤ fuel)%nat →
    ∃ out nd, main split int fuel g (Some env) ox oy dx dy = Some (out, nd)
              ∧ (nd = Finished ∨ nd = Exited).
Proof.
  intros Hsized [n Hrect] Hlen.
  destruct (sized_prelude split int env Hsized) as (l1 & a1 & b1 & m1 & n1 & Hl1 & Ha1 & Hm1 & Hb1 & Hn1).
  destruct (World_init_rectangular split (drop 1 env) n) as (w & Hw & Hg); [|done|].
  { destruct env as [|? [|? ?]]; cbn in *; [lia..|done]. }
  unfold main. rewrite Hl1. cbn [step]. rewrite Ha1. cbn [step].
  rewrite Hm1, Hb1. cbn [step]. rewrite Hn1, Hw. cbn [step].
  destruct (point_inside w (mkVector2 ox oy)) eqn:Hs; cbn [negb];
    [|exists 0%nat; intros; eexists _, _; split; [done|by right]].
  destruct (point_inside w (mkVector2 dx dy)) eqn:He; cbn [negb];
    [|exists 0%nat; intros; eexists _, _; split; [done|by right]].
  destruct (is_empty_inside w _ Hg Hs) as [[|] ->]; cbn [step negb];
    [|exists 0%nat; intros; eexists _, _; split; [done|by right]].
  destruct (is_empty_inside w _ Hg He) as [[|] ->]; cbn [step negb];
    [|exists 0%nat; intros; eexists _, _; split; [done|by right]].
  destruct (a_star_outcome w (mkVector2 ox oy) (mkVector2 dx dy) Hg) as [fuel0 Hout].
  exists fuel0. intros fuel Hfuel.
  destruct (Hout fuel Hfuel) as [(st & l & -> & _)|[-> _]]; cbn [step].
  - unfold present. destruct g; [|eexists _, _; split; [done|by left]].
    destruct (graphical_route_grid w (reverse (mkVector2 dx dy :: l)) Hg) as [rows ->].
    { intros Hnil. apply (f_equal length) in Hnil.
      rewrite length_reverse in Hnil. done. }
    eexists _, _. split; [done|by left].
  - eexists _, _. split; [done|by right].
Qed.

Lemma main_well_formed_witness :
  ∃ fuel0 : nat, ∀ fuel : nat, (fuel0 ≤ fuel)%nat →
    ∃ out nd,
      main split_ascii (λ _, Some 0) fuel true (Some ["3 3"; "0 0 1"; "1 0 1"; "0 0 0"]%string) 0 0 2 2
      = Some (out, nd)
      ∧ (nd = Finished ∨ nd = Exited).
Proof.
  apply main_well_formed.
  - exists "3 3"%string, "3"%string, "3"%string, []. repeat split; eauto.
  - exists 3. repeat constructor.
  - simpl. lia.
Defined.

(** X26. [a_star] never returns a path to a cell the search cannot step on:
    when the end is outside the world or not empty, and is not the start
    itself, no run returns a path, whatever the world and the start. *)
Theorem a_star_unpassable_end (fuel : nat) (w : World) (s e : Vector2) (p : list Vector2) :
  ¬ passable w e → e ≠ s → a_star fuel s e w ≠ Some (Ok p).
Proof.
  intros He Hes Hrun.
  destruct (a_star_path_facts fuel w s e p Hrun) as (Hhd & Hlast & _ & Htail & _).
  destruct p as [|a rest]; [done|]. injection Hhd as ->. cbn [tail] in Htail.
  rewrite last_cons in Hlast. destruct (last rest) as [z|] eqn:Hz; [|congruence].
  injection Hlast as ->. apply last_Some_elem_of in Hz.
  rewrite Forall_forall in Htail. by apply He, Htail.
Qed.

Lemma a_star_unpassable_end_witness :
  a_star 20 (mkVector2 0 0) (mkVector2 2 0) test_world
  ≠ Some (Ok [mkVector2 0 0; mkVector2 1 0; mkVector2 2 0]).
Proof.
  apply (a_star_unpassable_end 20 test_world (mkVector2 0 0) (mkVector2 2 0)).
  - intros [_ H]. vm_compute in H. discriminate.
  - discriminate.
Defined.
